(** * servicenow-devtools-mcp: policy engine, workflow state, investigations

    A shallow embedding of

    - [servicenow_mcp/config.py]   (the part of [Settings] the policy reads),
    - [servicenow_mcp/policy.py]   (deny list, masking, query safety, write gate),
    - [servicenow_mcp/state.py]    ([PreviewTokenStore], [SeededRecordTracker]),
    - [servicenow_mcp/investigations/acl_conflicts.py] ([run]),
    - [servicenow_mcp/investigations/error_analysis.py] ([run], [explain]),
    - [servicenow_mcp/utils.py] ([format_response], [build_encoded_query]),
    - [servicenow_mcp/client.py] ([_raise_for_status]),
    - [servicenow_mcp/tools/developer.py] (preview and apply, seed and
      cleanup),
    - [servicenow_mcp/tools/introspection.py] ([table_query]),

    followed by the properties the specification states about them and by
    further properties read off the code.  The tools are modelled up to the
    envelope they build: its JSON text is not.

    Conventions of the embedding.

    - A Python [str] is a [string]; one character of the [string] stands for
      one code point, so the model covers text whose code points are below
      256.  Comparison of strings ([<], [min], [max]) is Python's: by code
      point, lexicographic, which is [String.compare].
    - A Python [int] is a [Z]; [int | None] is [option Z].
    - A raised exception is the [Raise] branch of [result].
    - A [dict] used as a finite map is a [gmap]; a [dict] whose iteration
      order is observed (the groups of an investigation) is an association
      list in insertion order.
    - [time.monotonic()] and [uuid.uuid4()] are inputs of the operations that
      read them: the clock reading as a binary64 [float], subtracted as
      Python subtracts floats (with rounding), the generated identifier as a
      [string]. *)

From Stdlib Require Import ZArith QArith Ascii String List Sorted Permutation.
From Stdlib Require Import DecimalString.
From Stdlib Require PrimFloat FloatOps SpecFloat.
From stdpp Require Import base option list gmap fin_maps strings sorting.

Import (notations) PrimFloat.
Local Open Scope Z_scope.

(** A Python [float]. *)
Abbreviation float := PrimFloat.float.

(** * Python strings *)

Module Str.

(** [needle in hay] on [str]: [needle] occurs in [hay] at some position. *)
Fixpoint contains (needle hay : string) : bool :=
  String.prefix needle hay ||
  match hay with
  | EmptyString => false
  | String _ hay' => contains needle hay'
  end.

(** Lower case of one code point, for the letters [A]..[Z].  Below code
    point 256 these are the only characters that a case-insensitive match
    identifies with an ASCII letter. *)
Definition lower_char (c : ascii) : ascii :=
  let n := N_of_ascii c in
  if ((65 <=? n) && (n <=? 90))%N then ascii_of_N (n + 32) else c.

Fixpoint lower (s : string) : string :=
  match s with
  | EmptyString => EmptyString
  | String c s' => String (lower_char c) (lower s')
  end.

(** [re.compile(pattern, re.IGNORECASE).search(s)] for a [pattern] that is
    a literal (letters, digits and [_] only): [pattern] occurs in [s] up to
    the case of letters. *)
Definition search_ignorecase (pattern s : string) : bool :=
  contains (lower pattern) (lower s).

(** [str.isspace] for one code point below 256. *)
Definition is_space (c : ascii) : bool :=
  let n := N_of_ascii c in
  (((9 <=? n) && (n <=? 13)) || ((28 <=? n) && (n <=? 32))
   || (n =? 133) || (n =? 160))%N.

Fixpoint lstrip (s : string) : string :=
  match s with
  | EmptyString => EmptyString
  | String c s' => if is_space c then lstrip s' else s
  end.

(** [rstrip]: a trailing run of white space is dropped. *)
Fixpoint rstrip (s : string) : string :=
  match s with
  | EmptyString => EmptyString
  | String c s' =>
      match rstrip s' with
      | EmptyString => if is_space c then EmptyString else String c EmptyString
      | r => String c r
      end
  end.

(** [s.strip()] *)
Definition strip (s : string) : string := rstrip (lstrip s).

(** [s.split(sep)] for a separator of one character. *)
Fixpoint split (sep : ascii) (s : string) : list string :=
  match s with
  | EmptyString => [EmptyString]
  | String c s' =>
      if Ascii.eqb c sep then EmptyString :: split sep s'
      else match split sep s' with
           | [] => [String c EmptyString]
           | w :: ws => String c w :: ws
           end
  end.

(** Truth value of a [str]: the empty string is false. *)
Definition truthy (s : string) : bool :=
  match s with EmptyString => false | _ => true end.

(** Python's [min] and [max] over a sequence of strings: the first
    smallest, the first largest; [None] stands for the [ValueError] on an
    empty sequence. *)
Definition min (l : list string) : option string :=
  match l with
  | [] => None
  | x :: l' => Some (fold_left (fun m y => if String.ltb y m then y else m) l' x)
  end.

Definition max (l : list string) : option string :=
  match l with
  | [] => None
  | x :: l' => Some (fold_left (fun m y => if String.ltb m y then y else m) l' x)
  end.

(** [str(n)] for an [int]. *)
Definition of_int (n : Z) : string := NilZero.string_of_int (Z.to_int n).

End Str.

(** * errors.py *)

Inductive exn : Type :=
  | PolicyError (message : string)
  | QuerySafetyError (message : string)
  | ServiceNowMCPError (message : string)
  | IndexError.

Inductive result (A : Type) : Type :=
  | Ok (a : A)
  | Raise (e : exn).
Arguments Ok {A} a.
Arguments Raise {A} e.

(** * config.py *)

Module Config.

Definition _DEFAULT_LARGE_TABLES : string :=
  "syslog,sys_audit,sys_log_transaction,sys_email_log".

(** The fields of [Settings] that the policy engine reads. *)
Record Settings : Type := {
  servicenow_env : string;
  allow_writes_in_prod : bool;
  max_row_limit : Z;
  large_table_names_csv : string
}.

(** The defaults of the class. *)
Definition default_settings : Settings := {|
  servicenow_env := "dev";
  allow_writes_in_prod := false;
  max_row_limit := 100;
  large_table_names_csv := _DEFAULT_LARGE_TABLES
|}.

(** [[t.strip() for t in csv.split(",") if t.strip()]] *)
Definition large_table_names (s : Settings) : list string :=
  List.map Str.strip
    (List.filter (fun t => Str.truthy (Str.strip t))
       (Str.split "," (large_table_names_csv s))).

Definition is_production (s : Settings) : bool :=
  String.eqb (servicenow_env s) "prod".

End Config.

(** * Python values and the heap of [dict] objects *)

(** Addresses of heap objects. *)
Abbreviation loc := positive.

(** What a field of a record may hold: a scalar, or a reference to another
    object (a nested list or dict). *)
Inductive value : Type :=
  | VNone
  | VBool (b : bool)
  | VInt (n : Z)
  | VStr (s : string)
  | VRef (l : loc).

(** The heap holds the [dict] objects with [str] keys. *)
Abbreviation heap := (gmap loc (gmap string value)).

(** * policy.py *)

Module Policy.
Import Config.

(** Tables that must never be accessed. *)
Definition DENIED_TABLES : gset string :=
  {[ "sys_user_has_password"; "oauth_credential"; "oauth_entity";
     "sys_certificate"; "sys_ssh_key"; "sys_credentials";
     "discovery_credentials"; "sys_user_token" ]}.

(** Field name patterns that trigger masking, each compiled with
    [re.IGNORECASE]. *)
Definition _SENSITIVE_PATTERNS : list string :=
  [ "password"; "token"; "secret"; "credential"; "api_key"; "private_key" ].

Definition MASK_VALUE : value := VStr "***MASKED***".

(** Date field patterns used to detect date-bounded filters. *)
Definition _DATE_FIELD_PATTERNS : list string :=
  [ "sys_created_on"; "sys_updated_on"; "opened_at"; "closed_at";
    "sys_recorded_at" ].

Definition check_table_access (table : string) : result unit :=
  if decide (table ∈ DENIED_TABLES)
  then Raise (PolicyError ("Access to table '" +:+ table +:+ "' is denied by policy"))
  else Ok tt.

Definition _is_sensitive_field (field_name : string) : bool :=
  existsb (fun pattern => Str.search_ignorecase pattern field_name)
          _SENSITIVE_PATTERNS.

(** [d[key] = v] on the dict at address [d]. *)
Definition setitem (h : heap) (d : loc) (key : string) (v : value) : heap :=
  alter (insert key v) d h.

(** [for key in masked: if _is_sensitive_field(key): masked[key] = MASK_VALUE],
    over the keys [keys] of the dict at address [masked]. *)
Definition mask_loop (masked : loc) (keys : list string) (h : heap) : heap :=
  fold_left
    (fun hh key =>
       if _is_sensitive_field key then setitem hh masked key MASK_VALUE else hh)
    keys h.

(** [masked = dict(record)] allocates a new dict with the items of
    [record]; the loop then overwrites, in the new dict, the value of every
    sensitive key.  The result is the heap after the call and the address
    of [masked]; [None] when [record] is not the address of a dict. *)
Definition mask_sensitive_fields (h : heap) (record : loc) : option (heap * loc) :=
  match h !! record with
  | None => None
  | Some items =>
      let masked := fresh (dom h) in
      let h1 := <[masked := items]> h in
      Some (mask_loop masked (map_to_list items).*1 h1, masked)
  end.

Definition _has_date_filter (query : string) : bool :=
  existsb (fun field => Str.contains field query) _DATE_FIELD_PATTERNS.

(** [table in settings.large_table_names], a list. *)
Definition in_list (x : string) (l : list string) : bool :=
  existsb (String.eqb x) l.

(** The returned dict [{"limit": effective_limit}] is represented by its
    one value. *)
Definition enforce_query_safety
    (table query : string) (limit : option Z) (settings : Settings) : result Z :=
  match check_table_access table with
  | Raise e => Raise e
  | Ok _ =>
      let effective_limit :=
        match limit with
        | None => max_row_limit settings
        | Some l => if l >? max_row_limit settings then max_row_limit settings else l
        end in
      if in_list table (large_table_names settings) && negb (_has_date_filter query)
      then Raise (QuerySafetyError
                    ("Table '" +:+ table +:+ "' is large and requires a date-bounded filter "
                     +:+ "(e.g., sys_created_on>=YYYY-MM-DD). "
                     +:+ "Add a date field constraint to your query."))
      else Ok effective_limit
  end.

(** The filter names a date field: one of [_DATE_FIELD_PATTERNS] occurs in
    it as a substring. *)
Definition date_bounded (query : string) : Prop :=
  exists field a b,
    field ∈ _DATE_FIELD_PATTERNS /\ query = a +:+ field +:+ b.

(** The field name matches a sensitivity pattern, case-insensitively: up
    to the case of its letters, the pattern occurs in it. *)
Definition matches_sensitive_pattern (field_name : string) : Prop :=
  exists pattern a b,
    pattern ∈ _SENSITIVE_PATTERNS /\
    Str.lower field_name = a +:+ Str.lower pattern +:+ b.

Definition can_write (table : string) (settings : Settings) (override : bool) : bool :=
  if decide (table ∈ DENIED_TABLES) then false
  else if is_production settings && negb override then false
  else true.

End Policy.

(** * state.py *)

Module State.

(** [a > b] on exact numbers. *)
Definition Qgtb (a b : Q) : bool := negb (Qle_bool a b).

(** The number that a finite float with sign [s], mantissa [m] and exponent
    [e] stands for: [m * 2^e], negated when [s] is set. *)
Definition finite_value (s : bool) (m : positive) (e : Z) : Q :=
  let mz := if s then Z.neg m else Z.pos m in
  if 0 <=? e then inject_Z (mz * 2 ^ e)
  else Qmake mz (Pos.pow 2 (Z.to_pos (- e))).

(** The number that a float stands for; [None] for an infinity and for a
    NaN. *)
Definition float_value (x : float) : option Q :=
  match FloatOps.Prim2SF x with
  | SpecFloat.S754_zero _ => Some 0%Q
  | SpecFloat.S754_finite s m e => Some (finite_value s m e)
  | SpecFloat.S754_infinity _ | SpecFloat.S754_nan => None
  end.

(** [x > n] for a float [x] and an int [n]: Python compares the two
    numbers exactly; plus infinity is above every int, a NaN is above
    none. *)
Definition float_gt_int (x : float) (n : Z) : bool :=
  match FloatOps.Prim2SF x with
  | SpecFloat.S754_zero _ => Qgtb 0 (inject_Z n)
  | SpecFloat.S754_finite s m e => Qgtb (finite_value s m e) (inject_Z n)
  | SpecFloat.S754_infinity s => negb s
  | SpecFloat.S754_nan => false
  end.

(** The age that the store computes for an entry created at the clock
    reading [created], read at [now]: the float [now - created]. *)
Definition age (now created : float) : float := PrimFloat.sub now created.

(** The computed age is a number that is at most the TTL. *)
Definition within_ttl (ttl : Z) (now created : float) : Prop :=
  exists a, float_value (age now created) = Some a /\ (a <= inject_Z ttl)%Q.

Section PreviewTokenStore.
(** The payload is stored and handed back as it is. *)
Context {Payload : Type}.

(** One entry of [_store]: [{"payload": ..., "created_at": ...}]. *)
Record Entry : Type := {
  payload : Payload;
  created_at : float
}.

Record PreviewTokenStore : Type := {
  _ttl : Z;
  _store : gmap string Entry
}.

(** [__init__] *)
Definition init (ttl_seconds : Z) : PreviewTokenStore :=
  {| _ttl := ttl_seconds; _store := ∅ |}.

(** [create]: [token] is the value of [str(uuid.uuid4())], [now] the
    value of [time.monotonic()]. *)
Definition create (self : PreviewTokenStore) (token : string) (now : float)
    (p : Payload) : PreviewTokenStore * string :=
  ({| _ttl := _ttl self;
      _store := <[token := {| payload := p; created_at := now |}]> (_store self) |},
   token).

Definition _is_expired (self : PreviewTokenStore) (now : float) (entry : Entry) : bool :=
  float_gt_int (age now (created_at entry)) (_ttl self).

Definition get (self : PreviewTokenStore) (now : float) (token : string)
    : PreviewTokenStore * option Payload :=
  match _store self !! token with
  | None => (self, None)
  | Some entry =>
      if _is_expired self now entry
      then ({| _ttl := _ttl self; _store := delete token (_store self) |}, None)
      else (self, Some (payload entry))
  end.

Definition consume (self : PreviewTokenStore) (now : float) (token : string)
    : PreviewTokenStore * option Payload :=
  match _store self !! token with
  | None => (self, None)
  | Some entry =>
      if _is_expired self now entry
      then ({| _ttl := _ttl self; _store := delete token (_store self) |}, None)
      else ({| _ttl := _ttl self; _store := delete token (_store self) |},
            Some (payload entry))
  end.

(** A call on the store, for statements about sequences of calls. *)
Inductive call : Type :=
  | CallCreate (token : string) (p : Payload)
  | CallGet (token : string)
  | CallConsume (token : string).

(** One call at clock reading [now]; a [create] has no payload result. *)
Definition step (self : PreviewTokenStore) (now : float) (c : call)
    : PreviewTokenStore * option Payload :=
  match c with
  | CallCreate token p => ((create self token now p).1, None)
  | CallGet token => get self now token
  | CallConsume token => consume self now token
  end.

(** A sequence of calls, each with its clock reading, and what each
    returned. *)
Fixpoint run_calls (self : PreviewTokenStore) (calls : list (float * call))
    : PreviewTokenStore * list (call * option Payload) :=
  match calls with
  | [] => (self, [])
  | (now, c) :: rest =>
      let '(self1, r) := step self now c in
      let '(self2, rs) := run_calls self1 rest in
      (self2, (c, r) :: rs)
  end.

(** The call names [token] as the token it reads. *)
Definition reads (token : string) (c : call) : bool :=
  match c with
  | CallCreate _ _ => false
  | CallGet t | CallConsume t => String.eqb t token
  end.

(** The call stores a payload under [token]. *)
Definition creates (token : string) (c : call) : bool :=
  match c with
  | CallCreate t _ => String.eqb t token
  | _ => false
  end.

End PreviewTokenStore.

Arguments Entry : clear implicits.
Arguments PreviewTokenStore : clear implicits.
Arguments call : clear implicits.

(** One [{"table": ..., "sys_ids": ...}] entry of the tracker. *)
Record SeedEntry : Type := {
  table : string;
  sys_ids : list string
}.

Module SeededRecordTracker.

(** The [_store] of the tracker. *)
Abbreviation t := (gmap string (list SeedEntry)).

Definition init : t := ∅.

Definition track (self : t) (tag table : string) (sys_ids : list string) : t :=
  let self1 :=
    match self !! tag with
    | None => <[tag := []]> self
    | Some _ => self
    end in
  alter (fun entries => entries ++ [{| table := table; sys_ids := sys_ids |}])
        tag self1.

(** [list(entries)]: the caller gets a list of its own. *)
Definition get (self : t) (tag : string) : option (list SeedEntry) :=
  match self !! tag with
  | None => None
  | Some entries => Some entries
  end.

(** [self._store.pop(tag, None)] *)
Definition remove (self : t) (tag : string) : t := delete tag self.

End SeededRecordTracker.

End State.

(** * The remote data client, as the investigations use it *)

(** A record of the Table API: a dict from field names to values.  The
    fields the investigations read hold strings. *)
Abbreviation record := (gmap string string).

(** [record.get(key, default)] *)
Definition get_default (r : record) (key default : string) : string :=
  match r !! key with
  | Some v => v
  | None => default
  end.

(** [query_records(table, query, fields, limit, order_by)] returns the
    records and the total count, or raises. *)
Record ServiceNowClient : Type := {
  query_records :
    string -> string -> list string -> Z -> option string ->
    result (list record * Z)
}.

(** [len(l)] *)
Definition len {A : Type} (l : list A) : Z := Z.of_nat (length l).

(** * [defaultdict(list)], in insertion order *)

Module Groups.
Section Groups.
Context {A : Type}.

(** [groups[key].append(x)]: a key seen before keeps its place and gets
    [x] at the end of its list, a new key goes last. *)
Fixpoint append_to (key : string) (x : A) (groups : list (string * list A))
    : list (string * list A) :=
  match groups with
  | [] => [(key, [x])]
  | (k, g) :: rest =>
      if String.eqb k key then (k, g ++ [x]) :: rest
      else (k, g) :: append_to key x rest
  end.

(** [for x in xs: groups[key_of(x)].append(x)], from the empty dict. *)
Definition group_by (key_of : A -> string) (xs : list A)
    : list (string * list A) :=
  fold_left (fun groups x => append_to (key_of x) x groups) xs [].

(** [groups[k]] for a key that is present: the list stored under the
    first occurrence of the key. *)
Fixpoint assoc (k : string) (groups : list (string * list A))
    : option (list A) :=
  match groups with
  | [] => None
  | (k', g) :: rest => if String.eqb k' k then Some g else assoc k rest
  end.

(** The members of [xs] with key [k], in the order of [xs]. *)
Definition with_key (key_of : A -> string) (k : string) (xs : list A) : list A :=
  List.filter (fun x => bool_decide (key_of x = k)) xs.

(** The loop invariant of the grouping: keys without repetition, and
    under each key the members seen so far, none of the lists empty. *)
Definition grouped (key_of : A -> string)
    (groups : list (string * list A)) (xs : list A) : Prop :=
  NoDup groups.*1 /\
  forall k, assoc k groups =
              match with_key key_of k xs with [] => None | g => Some g end.

End Groups.
End Groups.

(** [sorted(l, key=key)]: stable, ascending in an [int] key. *)
Section SortedBy.
Context {A : Type} (key : A -> Z).

Fixpoint insert_by (x : A) (l : list A) : list A :=
  match l with
  | [] => [x]
  | y :: l' => if key x <=? key y then x :: y :: l' else y :: insert_by x l'
  end.

Definition sorted_by (l : list A) : list A := fold_right insert_by [] l.
End SortedBy.

(** [[f(x) for x in l]] where [f] may raise. *)
Fixpoint traverse {A B : Type} (f : A -> result B) (l : list A) : result (list B) :=
  match l with
  | [] => Ok []
  | x :: l' =>
      match f x with
      | Raise e => Raise e
      | Ok y =>
          match traverse f l' with
          | Raise e => Raise e
          | Ok ys => Ok (y :: ys)
          end
      end
  end.

(** * investigations/acl_conflicts.py *)

Module AclConflicts.

(** The parameter the module reads: [params.get("table")], absent or a
    [str]. *)
Record Params : Type := { table : option string }.

Record AclSummary : Type := {
  sys_id : string;
  operation : string;
  condition : string;
  active : string
}.

Record Finding : Type := {
  category : string;
  name : string;
  count : Z;
  acls : list AclSummary;
  detail : string
}.

Record RunResult : Type := {
  investigation : string;
  error : option string;
  result_table : option string;
  finding_count : Z;
  findings : list Finding;
  total_acls_checked : option Z
}.

Definition summary (a : record) : AclSummary :=
  {| sys_id := get_default a "sys_id" "";
     operation := get_default a "operation" "";
     condition := get_default a "condition" "";
     active := get_default a "active" "" |}.

(** The finding appended for a group. *)
Definition finding (name : string) (group : list record) : Finding :=
  {| category := "acl_conflict";
     name := name;
     count := len group;
     acls := List.map summary group;
     detail := "ACL '" +:+ name +:+ "' has " +:+ Str.of_int (len group)
               +:+ " overlapping rules with different conditions" |}.

(** The loop over [groups.items()]. *)
Definition findings_of (groups : list (string * list record)) : list Finding :=
  flat_map
    (fun '(name, group) => if len group >=? 2 then [finding name group] else [])
    groups.

(** The ACLs of [acls] whose name is [n], in the order of [acls]. *)
Definition members (n : string) (acls : list record) : list record :=
  Groups.with_key (fun acl => get_default acl "name" "") n acls.

(** In the words of the specification: the group has two members with
    differing conditions. *)
Definition conditions_differ (group : list record) : bool :=
  existsb
    (fun a =>
       existsb
         (fun b =>
            negb (String.eqb (get_default a "condition" "")
                             (get_default b "condition" "")))
         group)
    group.

Definition run (client : ServiceNowClient) (params : Params) : result RunResult :=
  match table params with
  | None | Some EmptyString =>
      Ok {| investigation := "acl_conflicts";
            error := Some "Missing required parameter: table";
            result_table := None;
            finding_count := 0;
            findings := [];
            total_acls_checked := None |}
  | Some table =>
      match query_records client "sys_security_acl" ("nameSTARTSWITH" +:+ table)
              ["sys_id"; "name"; "operation"; "condition"; "script"; "active"]
              500 None with
      | Raise e => Raise e
      | Ok (acls, _) =>
          let groups := Groups.group_by (fun acl => get_default acl "name" "") acls in
          let findings := findings_of groups in
          Ok {| investigation := "acl_conflicts";
                error := None;
                result_table := Some table;
                finding_count := len findings;
                findings := findings;
                total_acls_checked := Some (len acls) |}
      end
  end.

End AclConflicts.

(** * investigations/error_analysis.py *)

Module ErrorAnalysis.

(** The parameters the module reads, each absent or of its type. *)
Record Params : Type := {
  hours : option Z;
  source_filter : option string;
  limit : option Z
}.

Record Finding : Type := {
  category : string;
  source : string;
  frequency : Z;
  first_seen : string;
  last_seen : string;
  sample_messages : list string;
  element_id : string
}.

Record RunResult : Type := {
  investigation : string;
  finding_count : Z;
  findings : list Finding;
  params_hours : Z;
  params_source : option string;
  params_limit : Z;
  total_errors : Z
}.

(** [e.get("sys_created_on", "")] and [e.get("message", "")] *)
Definition timestamp_of (e : record) : string := get_default e "sys_created_on" "".
Definition message_of (e : record) : string := get_default e "message" "".

(** The body of the loop over the sorted clusters; [entries[0]] raises on
    an empty cluster. *)
Definition finding_of (cluster : string * list record) : result Finding :=
  let '(src, entries) := cluster in
  let timestamps := List.map timestamp_of entries in
  let sample_messages := List.map message_of (firstn 3 entries) in
  match entries with
  | [] => Raise IndexError
  | e0 :: _ =>
      Ok {| category := "error_cluster";
            source := src;
            frequency := len entries;
            first_seen := default "" (Str.min timestamps);
            last_seen := default "" (Str.max timestamps);
            sample_messages := sample_messages;
            element_id := "syslog:" +:+ get_default e0 "sys_id" "" |}
  end.

(** The encoded query: [level=0], and the source filter when one is given
    and not empty. *)
Definition query (params : Params) : string :=
  match source_filter params with
  | None | Some EmptyString => "level=0"
  | Some src => "level=0" +:+ "^sourceLIKE" +:+ src
  end.

(** The key of the clustering: [log.get("source", "unknown")]. *)
Definition source_of (log : record) : string := get_default log "source" "unknown".

(** The log entries of [logs] whose source is [src], in the order of
    [logs]. *)
Definition cluster (src : string) (logs : list record) : list record :=
  Groups.with_key source_of src logs.

Definition run (client : ServiceNowClient) (params : Params) : result RunResult :=
  let hours := default 24 (hours params) in
  let limit := default 100 (limit params) in
  match query_records client "syslog" (query params)
          ["sys_id"; "message"; "source"; "level"; "sys_created_on"]
          limit (Some "sys_created_on") with
  | Raise e => Raise e
  | Ok (logs, _) =>
      let clusters := Groups.group_by source_of logs in
      match traverse finding_of
              (sorted_by (fun x => - len x.2) clusters) with
      | Raise e => Raise e
      | Ok findings =>
          Ok {| investigation := "error_analysis";
                finding_count := len findings;
                findings := findings;
                params_hours := hours;
                params_source := source_filter params;
                params_limit := limit;
                total_errors := len logs |}
      end
  end.

End ErrorAnalysis.

(** * Concrete inputs used in the examples *)

Module Examples.
Import Config.

(** Settings that flag production. *)
Definition prod_settings : Settings :=
  {| servicenow_env := "prod"; allow_writes_in_prod := false;
     max_row_limit := 100; large_table_names_csv := _DEFAULT_LARGE_TABLES |}.

(** Settings whose [LARGE_TABLE_NAMES_CSV] has a tab, spaces, a no-break
    space, a line feed and an entry of white space only
    around its two names. *)
Definition spaced_settings : Settings :=
  {| servicenow_env := "dev"; allow_writes_in_prod := false;
     max_row_limit := 100;
     large_table_names_csv :=
       String (Ascii.ascii_of_nat 9) "syslog "
       +:+ String (Ascii.ascii_of_nat 160) ", ,"
       +:+ String (Ascii.ascii_of_nat 160) " sys_audit"
       +:+ String (Ascii.ascii_of_nat 10) "" |}.

(** Settings whose [LARGE_TABLE_NAMES_CSV] names a deny-listed table. *)
Definition denied_large_settings : Settings :=
  {| servicenow_env := "dev"; allow_writes_in_prod := false;
     max_row_limit := 100; large_table_names_csv := "syslog, sys_user_token" |}.

(** A heap with one record; the field [Api_Key] holds an [int]. *)
Definition record_heap : heap :=
  {[ 5%positive := {[ "name" := VStr "x"; "Api_Key" := VInt 3 ]} ]}.

(** A store with the default TTL of 300 seconds, and the same store after
    a [create] at clock reading 10. *)
Definition token_store : State.PreviewTokenStore string := State.init 300.

Definition token_store_1 : State.PreviewTokenStore string :=
  (State.create token_store "tok-1" 10 "change-set").1.

(** A client whose every query returns [records]. *)
Definition client_returning (records : list record) : ServiceNowClient :=
  {| query_records := fun _ _ _ _ _ => Ok (records, len records) |}.

Definition acl (sys_id name condition : string) : record :=
  {[ "sys_id" := sys_id; "name" := name; "operation" := "read";
     "condition" := condition; "script" := ""; "active" := "true" ]}.

(** Two ACLs of one name with different conditions, with the same
    condition, and two ACLs of different names. *)
Definition acls_conflict : list record :=
  [ acl "acl1" "incident.read" "active=true";
    acl "acl2" "incident.read" "priority=1" ].

Definition acls_same_condition : list record :=
  [ acl "acl1" "incident.read" "active=true";
    acl "acl2" "incident.read" "active=true" ].

Definition acls_distinct : list record :=
  [ acl "acl1" "incident.read" "active=true";
    acl "acl2" "incident.write" "priority=1" ].

Definition acl_params : AclConflicts.Params :=
  {| AclConflicts.table := Some "incident" |}.

Definition log (source ts : string) : record :=
  {[ "source" := source; "sys_created_on" := ts ]}.

(** [[{source:"A",ts:1},{source:"A",ts:2},{source:"B",ts:3}]] *)
Definition logs_AAB : list record := [ log "A" "1"; log "A" "2"; log "B" "3" ].

(** A log entry with its four fields, and a list of entries that the
    client returns out of the order of their timestamps. *)
Definition log_entry (sys_id source ts message : string) : record :=
  {[ "sys_id" := sys_id; "source" := source; "sys_created_on" := ts;
     "message" := message ]}.

Definition logs_messages : list record :=
  [ log_entry "e1" "db" "2024-01-02" "timeout";
    log_entry "e2" "web" "2024-01-03" "bad gateway";
    log_entry "e3" "db" "2024-01-01" "deadlock";
    log_entry "e4" "db" "2024-01-05" "disk full";
    log_entry "e5" "db" "2024-01-04" "refused" ].

Definition error_params : ErrorAnalysis.Params :=
  {| ErrorAnalysis.hours := None; ErrorAnalysis.source_filter := None;
     ErrorAnalysis.limit := None |}.

End Examples.

(** * More of Python's [str] *)

Module PyStr.

(** The characters of a string. *)
Definition chars (s : string) : list ascii := list_ascii_of_string s.

(** [s.rstrip(c)] for a set of one character [c]: a trailing run of [c] is
    dropped. *)
Fixpoint rstrip_char (c : ascii) (s : string) : string :=
  match s with
  | EmptyString => EmptyString
  | String x s' =>
      match rstrip_char c s' with
      | EmptyString => if Ascii.eqb x c then EmptyString else String x EmptyString
      | r => String x r
      end
  end.

(** [c * n] *)
Fixpoint replicate_char (c : ascii) (n : nat) : string :=
  match n with
  | O => EmptyString
  | S n' => String c (replicate_char c n')
  end.

(** [s.split(sep, 1)] for a separator of one character: the text before the
    first [sep] and the text after it, or [s] alone when [sep] does not
    occur. *)
Fixpoint split_once (sep : ascii) (s : string) : list string :=
  match s with
  | EmptyString => [EmptyString]
  | String c s' =>
      if Ascii.eqb c sep then [EmptyString; s']
      else match split_once sep s' with
           | w :: ws => String c w :: ws
           | [] => [String c EmptyString]
           end
  end.

(** [sep.join(l)] is [String.concat sep l]. *)
Definition join (sep : string) (l : list string) : string := String.concat sep l.

End PyStr.

(** * config.py: the validator of the instance URL *)

Module ConfigUrl.

(** [strip_trailing_slash]: [v.rstrip("/")] *)
Definition strip_trailing_slash (v : string) : string := PyStr.rstrip_char "/" v.

End ConfigUrl.

(** A name as [large_table_names] returns it: not empty, no white space at
    either end, no comma. *)
Definition clean_name (name : string) : Prop :=
  name <> "" /\ Str.strip name = name /\ Str.contains "," name = false.

(** * utils.py *)

Module Utils.

(** One [f"{key}={value}"] term. *)
Definition term (item : string * string) : string := item.1 +:+ "=" +:+ item.2.

(** [build_encoded_query]: the argument is a dict, given by its items in
    insertion order, or a [str]. *)
Definition build_encoded_query (conditions : list (string * string) + string) : string :=
  match conditions with
  | inr query => query
  | inl [] => ""
  | inl items => PyStr.join "^" (List.map term items)
  end.

End Utils.

(** * client.py: status codes *)

Module ClientStatus.

(** The classes of errors.py that the client raises. *)
Inductive error_class : Type :=
  | AuthError
  | ForbiddenError
  | NotFoundError
  | ServerError
  | ServiceNowMCPErrorBase.

(** An exception of the client: its class, its message, and the
    [status_code] that the constructor of the class stores. *)
Record client_error : Type := {
  cls : error_class;
  message : string;
  status_code : option Z
}.

(** The constructors of errors.py: each class but the base class fixes the
    status code. *)
Definition raise_AuthError (msg : string) : client_error :=
  {| cls := AuthError; message := msg; status_code := Some 401 |}.
Definition raise_ForbiddenError (msg : string) : client_error :=
  {| cls := ForbiddenError; message := msg; status_code := Some 403 |}.
Definition raise_NotFoundError (msg : string) : client_error :=
  {| cls := NotFoundError; message := msg; status_code := Some 404 |}.
Definition raise_ServerError (msg : string) : client_error :=
  {| cls := ServerError; message := msg; status_code := Some 500 |}.
Definition raise_ServiceNowMCPError (msg : string) (code : Z) : client_error :=
  {| cls := ServiceNowMCPErrorBase; message := msg; status_code := Some code |}.

(** What the client reads of an HTTP response: the status code, and the
    value of [body["error"]["message"]] when the body is JSON that holds
    it. *)
Record Response : Type := {
  response_status : Z;
  body_error_message : option string
}.

Definition _extract_error_message (response : Response) (default : string) : string :=
  match body_error_message response with
  | Some m => m
  | None => default
  end.

(** [_raise_for_status]: the exception raised, or [None] when the call
    returns. *)
Definition _raise_for_status (response : Response) : option client_error :=
  let code := response_status response in
  if code =? 401 then
    Some (raise_AuthError (_extract_error_message response "Authentication failed"))
  else if code =? 403 then
    Some (raise_ForbiddenError (_extract_error_message response "Access forbidden"))
  else if code =? 404 then
    Some (raise_NotFoundError (_extract_error_message response "Resource not found"))
  else if code >=? 500 then
    Some (raise_ServerError (_extract_error_message response "ServiceNow server error"))
  else if code >=? 400 then
    Some (raise_ServiceNowMCPError (_extract_error_message response "Request failed") code)
  else None.

End ClientStatus.

(** * The [explain] operation of the error analysis *)

(** What a call can end with, besides the exceptions of [exn]: the
    [ValueError] of an unpacking. *)
Inductive outcome (A : Type) : Type :=
  | Return (a : A)
  | Throw (e : exn)
  | ThrowValueError (message : string).
Arguments Return {A} a.
Arguments Throw {A} e.
Arguments ThrowValueError {A} message.

(** [get_record(table, sys_id)] of the client, with the default
    arguments. *)
Abbreviation get_record_fn := (string -> string -> result record).

Record Explanation : Type := {
  element : string;
  explanation : string;
  explained_record : record
}.

Module ErrorAnalysisExplain.

(** [explain]: [element_id] has the form ["syslog:sys_id"]. *)
Definition explain (get_record : get_record_fn) (element_id : string)
    : outcome Explanation :=
  match PyStr.split_once ":" element_id with
  | [table; sys_id] =>
      match get_record table sys_id with
      | Raise e => Throw e
      | Ok r =>
          let source := get_default r "source" "" in
          let explanation_parts :=
            [ "Syslog error from source '" +:+ source +:+ "'.";
              "Message: " +:+ get_default r "message" "";
              "Logged at: " +:+ get_default r "sys_created_on" "" +:+ ".";
              "Check the source script or process for the root cause of this error." ] in
          Return {| element := element_id;
                    explanation := PyStr.join " " explanation_parts;
                    explained_record := r |}
      end
  | _ => ThrowValueError "not enough values to unpack (expected 2, got 1)"
  end.

End ErrorAnalysisExplain.

(** * utils.py: the response envelope *)

(** [str(e)] for the exceptions of [exn]. *)
Definition exn_str (e : exn) : string :=
  match e with
  | PolicyError m | QuerySafetyError m | ServiceNowMCPError m => m
  | IndexError => "list index out of range"
  end.

Module Envelope.

(** The [pagination] dict that the tools pass. *)
Record Pagination : Type := {
  offset : Z;
  limit : Z;
  total : Z
}.

(** The dict that [format_response] builds, for data of type [D]: [data]
    is [None] for the JSON [null]; the keys [error], [pagination] and
    [warnings] are absent when their field is [None]. *)
Record t (D : Type) : Type := {
  correlation_id : string;
  status : string;
  data : option D;
  error : option string;
  pagination : option Pagination;
  warnings : option (list string)
}.
Arguments correlation_id {D} _.
Arguments status {D} _.
Arguments data {D} _.
Arguments error {D} _.
Arguments pagination {D} _.
Arguments warnings {D} _.

Definition format_response {D : Type} (data : option D) (correlation_id status : string)
    (error : option string) (pagination : option Pagination)
    (warnings : option (list string)) : t D :=
  {| correlation_id := correlation_id;
     status := status;
     data := data;
     error := error;
     pagination := pagination;
     warnings := warnings |}.

(** [format_response(data=None, correlation_id=..., status="error",
    error=message)], the answer of every tool to a failure. *)
Definition failure {D : Type} (correlation_id message : string) : t D :=
  format_response None correlation_id "error" (Some message) None None.

(** [format_response(data=data, correlation_id=...)] *)
Definition success {D : Type} (correlation_id : string) (data : D) : t D :=
  format_response (Some data) correlation_id "success" None None None.

End Envelope.

(** * tools/developer.py *)

Module Developer.
Import Config Policy State Envelope.

(** The parsed [changes] of a preview: the items of the JSON object, in
    order, with values that are strings as the fields of a record are. *)
Abbreviation Changes := (list (string * string)).

(** The payload that [table_preview_update] stores under the token. *)
Record Payload : Type := {
  payload_table : string;
  payload_sys_id : string;
  payload_changes : Changes
}.

Record FieldDiff : Type := { old : string; new : string }.

Record PreviewData : Type := {
  preview_token : string;
  preview_table : string;
  preview_sys_id : string;
  diff : list (string * FieldDiff)
}.

Record ApplyData : Type := {
  applied_table : string;
  applied_sys_id : string;
  applied_record : record
}.

Record CleanupData : Type := {
  cleanup_tag : string;
  deleted_count : Z
}.

Record SeedData : Type := {
  seed_table : string;
  created_count : Z;
  seed_sys_ids : list string;
  seed_tag : string
}.

Definition blocked : string := "Write operations are blocked in production environments".

Section Tools.
(** The settings of the server; [json.loads] on the text of a JSON object,
    which gives the items or raises (the message of the exception); and the
    calls of the client that the tools make. *)
Context (settings : Settings).
Context (json_loads : string -> string + Changes).
Context (json_loads_records : string -> string + list record).
Context (get_record : string -> string -> result record).
Context (update_record : string -> string -> Changes -> result record).
Context (create_record : string -> record -> result record).
Context (delete_record : string -> string -> result bool).

(** [table_preview_update]; [token] is the value of [uuid.uuid4()] that
    [create] draws, [now] the clock reading. *)
Definition table_preview_update
    (preview_store : PreviewTokenStore Payload) (token : string) (now : float)
    (correlation_id table sys_id changes : string)
    : PreviewTokenStore Payload * Envelope.t PreviewData :=
  if negb (can_write table settings false) then
    (preview_store, failure correlation_id blocked)
  else
    match json_loads changes with
    | inl message => (preview_store, failure correlation_id message)
    | inr changes_dict =>
        match get_record table sys_id with
        | Raise e => (preview_store, failure correlation_id (exn_str e))
        | Ok current =>
            let diff :=
              List.map
                (fun '(field, new_value) =>
                   (field, {| old := get_default current field ""; new := new_value |}))
                changes_dict in
            let '(store1, tok) :=
              create preview_store token now
                {| payload_table := table; payload_sys_id := sys_id;
                   payload_changes := changes_dict |} in
            (store1,
             success correlation_id
               {| preview_token := tok; preview_table := table;
                  preview_sys_id := sys_id; diff := diff |})
        end
    end.

(** [table_apply_update] *)
Definition table_apply_update
    (preview_store : PreviewTokenStore Payload) (now : float)
    (correlation_id preview_token : string)
    : PreviewTokenStore Payload * Envelope.t ApplyData :=
  let '(store1, payload) := consume preview_store now preview_token in
  match payload with
  | None => (store1, failure correlation_id "Invalid or expired preview token")
  | Some p =>
      match update_record (payload_table p) (payload_sys_id p) (payload_changes p) with
      | Raise e => (store1, failure correlation_id (exn_str e))
      | Ok updated =>
          (store1,
           success correlation_id
             {| applied_table := payload_table p; applied_sys_id := payload_sys_id p;
                applied_record := updated |})
      end
  end.

(** The inner loop of [dev_cleanup]: [deleted_count] counts the deletions
    made. *)
Fixpoint delete_ids (table : string) (sys_ids : list string) (deleted_count : Z)
    : result Z :=
  match sys_ids with
  | [] => Ok deleted_count
  | sys_id :: rest =>
      match delete_record table sys_id with
      | Raise e => Raise e
      | Ok _ => delete_ids table rest (deleted_count + 1)
      end
  end.

(** The outer loop of [dev_cleanup]. *)
Fixpoint delete_entries (entries : list SeedEntry) (deleted_count : Z) : result Z :=
  match entries with
  | [] => Ok deleted_count
  | entry :: rest =>
      match delete_ids (State.table entry) (sys_ids entry) deleted_count with
      | Raise e => Raise e
      | Ok n => delete_entries rest n
      end
  end.

(** [dev_cleanup] *)
Definition dev_cleanup
    (seed_tracker : gmap string (list SeedEntry)) (correlation_id tag : string)
    : gmap string (list SeedEntry) * Envelope.t CleanupData :=
  match SeededRecordTracker.get seed_tracker tag with
  | None =>
      (seed_tracker,
       failure correlation_id ("No records found for tag '" +:+ tag +:+ "'"))
  | Some entries =>
      match delete_entries entries 0 with
      | Raise e => (seed_tracker, failure correlation_id (exn_str e))
      | Ok n =>
          (SeededRecordTracker.remove seed_tracker tag,
           success correlation_id {| cleanup_tag := tag; deleted_count := n |})
      end
  end.

(** The loop of [dev_seed_test_data]: [created["sys_id"]] raises [KeyError]
    when the created record has no [sys_id]; the result is the list of the
    ids or the message of the exception. *)
Fixpoint create_all (table : string) (record_list : list record) (sys_ids : list string)
    : string + list string :=
  match record_list with
  | [] => inr sys_ids
  | record_data :: rest =>
      match create_record table record_data with
      | Raise e => inl (exn_str e)
      | Ok created =>
          match created !! "sys_id" with
          | None => inl "'sys_id'"
          | Some sys_id => create_all table rest (sys_ids ++ [sys_id])
          end
      end
  end.

(** [dev_seed_test_data]; [fresh_hex] is the value of
    [uuid.uuid4().hex[:8]]. *)
Definition dev_seed_test_data
    (seed_tracker : gmap string (list SeedEntry)) (fresh_hex : string)
    (correlation_id table records : string) (tag : option string)
    : gmap string (list SeedEntry) * Envelope.t SeedData :=
  if negb (can_write table settings false) then
    (seed_tracker, failure correlation_id blocked)
  else
    match json_loads_records records with
    | inl message => (seed_tracker, failure correlation_id message)
    | inr record_list =>
        let seed_tag :=
          match tag with
          | None | Some EmptyString => "seed-" +:+ fresh_hex
          | Some t => t
          end in
        match create_all table record_list [] with
        | inl message => (seed_tracker, failure correlation_id message)
        | inr sys_ids =>
            (SeededRecordTracker.track seed_tracker seed_tag table sys_ids,
             success correlation_id
               {| seed_table := table; created_count := len sys_ids;
                  seed_sys_ids := sys_ids; seed_tag := seed_tag |})
        end
    end.

End Tools.
End Developer.

(** * The contents of a masked copy *)

Module Masking.
Import Policy.

(** The items of [mask_sensitive_fields(record)] for a record with the
    items [items]: the value of the loop on the copy. *)
Definition mask_items (items : gmap string value) : gmap string value :=
  map_imap
    (fun key v => Some (if _is_sensitive_field key then MASK_VALUE else v))
    items.

End Masking.

(** * Sequences of calls on the token store *)

Module TokenCalls.
Import State.

(** The call does not name [tok]: it neither reads nor creates it. *)
Definition other_token {Payload : Type} (tok : string) (c : call Payload) : Prop :=
  reads tok c = false /\ creates tok c = false.

(** [get(tok)] at each of the clock readings [times]. *)
Definition gets {Payload : Type} (tok : string) (times : list float)
    : list (float * call Payload) :=
  List.map (fun t => (t, CallGet tok)) times.

End TokenCalls.

(** * Sequences of calls on the tracker *)

Module TrackerCalls.
Import State.

(** A call on a [SeededRecordTracker] that changes it. *)
Inductive call : Type :=
  | Track (tag table : string) (sys_ids : list string)
  | Remove (tag : string).

Definition step (self : gmap string (list SeedEntry)) (c : call)
    : gmap string (list SeedEntry) :=
  match c with
  | Track tag table sys_ids => SeededRecordTracker.track self tag table sys_ids
  | Remove tag => SeededRecordTracker.remove self tag
  end.

(** The calls of [calls], first to last, on the tracker [self]. *)
Definition run (calls : list call) (self : gmap string (list SeedEntry))
    : gmap string (list SeedEntry) :=
  fold_left step calls self.

Definition removes (tag : string) (c : call) : bool :=
  match c with
  | Remove t => String.eqb t tag
  | Track _ _ _ => false
  end.

(** The calls made after the last [remove] of [tag]. *)
Definition since_last_remove (tag : string) (calls : list call) : list call :=
  fold_left (fun acc c => if removes tag c then [] else acc ++ [c]) calls [].

(** The entries that the [track] calls of [calls] record under [tag], in the
    order of the calls. *)
Definition tracked_under (tag : string) (calls : list call) : list SeedEntry :=
  flat_map
    (fun c =>
       match c with
       | Track t table sys_ids =>
           if String.eqb t tag then [{| table := table; sys_ids := sys_ids |}] else []
       | Remove _ => []
       end)
    calls.

End TrackerCalls.

(** * tools/introspection.py *)

Module Introspection.
Import Config Policy Masking Envelope.

(** A record as the client returns it to the tool. *)
Abbreviation row := (gmap string value).

(** [query_records(table, query, fields=..., limit=..., offset=...,
    order_by=...)]: the records and the total count, or an exception. *)
Abbreviation query_fn :=
  (string -> string -> option (list string) -> Z -> Z -> option string ->
   result (list row * Z)).

(** [[f.strip() for f in fields.split(",") if f.strip()] if fields else None] *)
Definition field_list (fields : string) : option (list string) :=
  if Str.truthy fields then
    Some (List.map Str.strip
            (List.filter (fun f => Str.truthy (Str.strip f)) (Str.split "," fields)))
  else None.

(** [table_query].  The masked copy of each record is given by its items,
    [mask_items]. *)
Definition table_query (settings : Settings) (query_records : query_fn)
    (correlation_id table query fields : string) (limit offset : Z) (order_by : string)
    : Envelope.t (list row) :=
  match check_table_access table with
  | Raise e => failure correlation_id (exn_str e)
  | Ok _ =>
      match enforce_query_safety table query (Some limit) settings with
      | Raise e => failure correlation_id (exn_str e)
      | Ok effective_limit =>
          let warnings :=
            if effective_limit <? limit
            then ["Limit capped at " +:+ Str.of_int effective_limit] else [] in
          let order := if Str.truthy order_by then Some order_by else None in
          match query_records table query (field_list fields) effective_limit offset order
          with
          | Raise e => failure correlation_id (exn_str e)
          | Ok (records, count) =>
              format_response (Some (List.map mask_items records)) correlation_id
                "success" None
                (Some {| offset := offset; limit := effective_limit; total := count |})
                (match warnings with [] => None | _ => Some warnings end)
          end
      end
  end.

End Introspection.

(** * More concrete inputs *)

Module MoreExamples.
Import Config.

(** A log entry whose [sys_id] holds a colon, its cluster and the finding
    of the cluster. *)
Definition entry_1 : record :=
  {[ "sys_id" := "a:1"; "source" := "A"; "message" := "boom";
     "sys_created_on" := "2026-02-20 10:00:00" ]}.

Definition finding_A : ErrorAnalysis.Finding :=
  {| ErrorAnalysis.category := "error_cluster";
     ErrorAnalysis.source := "A";
     ErrorAnalysis.frequency := 1;
     ErrorAnalysis.first_seen := "2026-02-20 10:00:00";
     ErrorAnalysis.last_seen := "2026-02-20 10:00:00";
     ErrorAnalysis.sample_messages := ["boom"];
     ErrorAnalysis.element_id := "syslog:a:1" |}.

(** A client that holds [entry_1] in [syslog] and nothing else. *)
Definition get_entry_1 : get_record_fn :=
  fun table sys_id =>
    if String.eqb table "syslog" && String.eqb sys_id "a:1" then Ok entry_1
    else Raise (ServiceNowMCPError "Resource not found").

(** Settings that flag production and allow writes there. *)
Definition prod_allowing_settings : Settings :=
  {| servicenow_env := "prod"; allow_writes_in_prod := true;
     max_row_limit := 100; large_table_names_csv := _DEFAULT_LARGE_TABLES |}.

(** The JSON text of the object with the one item [state: 2], and a JSON
    parser for this one text. *)
Definition quote : string := String (Ascii.ascii_of_nat 34) EmptyString.

Definition changes_text : string :=
  "{" +:+ quote +:+ "state" +:+ quote +:+ ": " +:+ quote +:+ "2" +:+ quote +:+ "}".

Definition parse_changes : string -> string + Developer.Changes :=
  fun text =>
    if String.eqb text changes_text then inr [("state", "2")]
    else inl "Expecting value".

Definition incident_1 : record := {[ "sys_id" := "inc1"; "state" := "1" ]}.

Definition get_incident : string -> string -> result record :=
  fun table sys_id =>
    if String.eqb table "incident" && String.eqb sys_id "inc1" then Ok incident_1
    else Raise (ServiceNowMCPError "Resource not found").

Definition update_incident : string -> string -> Developer.Changes -> result record :=
  fun table sys_id changes => Ok {[ "sys_id" := sys_id; "state" := "2" ]}.

(** A store that holds nothing, for payloads of the developer tools. *)
Definition empty_store : State.PreviewTokenStore Developer.Payload := State.init 300.

(** A tracker with two entries under one tag, and a client whose
    deletions succeed. *)
Definition tracker_x : gmap string (list State.SeedEntry) :=
  State.SeededRecordTracker.track
    (State.SeededRecordTracker.track State.SeededRecordTracker.init
       "x" "incident" ["a"; "b"])
    "x" "problem" ["c"].

Definition delete_ok : string -> string -> result bool := fun _ _ => Ok true.

(** A client that answers every query with one user record, and a client
    that does so for limits up to 100 only. *)
Definition user_row : Introspection.row :=
  {[ "name" := VStr "ann"; "user_password" := VStr "hunter2" ]}.

Definition query_users : Introspection.query_fn :=
  fun _ _ _ _ _ _ => Ok ([user_row], 1).

Definition query_users_capped : Introspection.query_fn :=
  fun _ _ _ limit _ _ =>
    if limit >? 100 then Raise (ServiceNowMCPError "Request failed")
    else Ok ([user_row], 1).

End MoreExamples.

(** * Facts about strings *)

Module StrFacts.
Import Str.

Lemma app_nil (s : string) : "" +:+ s = s.
Proof. reflexivity. Qed.

Lemma app_cons (c : ascii) (s t : string) : String c s +:+ t = String c (s +:+ t).
Proof. reflexivity. Qed.

Lemma prefix_app (n b : string) : String.prefix n (n +:+ b) = true.
Proof.
  induction n as [|c n IH]; [by destruct b|].
  rewrite app_cons. simpl. by destruct (ascii_dec c c).
Qed.

Lemma prefix_inv (n h : string) :
  String.prefix n h = true -> exists b, h = n +:+ b.
Proof.
  revert h. induction n as [|c n IH]; intros h Hp.
  - by exists h.
  - destruct h as [|c' h]; [done|]. simpl in Hp.
    destruct (ascii_dec c c') as [->|]; [|done].
    destruct (IH h Hp) as [b ->]. by exists b.
Qed.

Lemma contains_prefix (n h : string) :
  String.prefix n h = true -> contains n h = true.
Proof. intros H. destruct h; cbn [contains]; by rewrite H. Qed.

Lemma contains_app (n a b : string) : contains n (a +:+ n +:+ b) = true.
Proof.
  induction a as [|c a IH].
  - rewrite app_nil. apply contains_prefix, prefix_app.
  - rewrite app_cons. simpl. rewrite IH. apply orb_true_r.
Qed.

(** [contains] decides the occurrence of [n] in [h]. *)
Lemma contains_spec (n h : string) :
  contains n h = true <-> exists a b, h = a +:+ n +:+ b.
Proof.
  split.
  - induction h as [|c h IH]; cbn [contains]; intros H.
    + apply orb_true_iff in H as [H|H]; [|done].
      apply prefix_inv in H as [b ->]. by exists "", b.
    + apply orb_true_iff in H as [H|H].
      * apply prefix_inv in H as [b ->]. by exists "", b.
      * destruct (IH H) as (a & b & ->). by exists (String c a), b.
  - intros (a & b & ->). apply contains_app.
Qed.

Lemma in_list_spec (x : string) (l : list string) :
  Policy.in_list x l = true <-> x ∈ l.
Proof.
  unfold Policy.in_list. rewrite existsb_exists. split.
  - intros (y & Hy & ->%String.eqb_eq). by apply list_elem_of_In.
  - intros H. exists x. split; [by apply list_elem_of_In | apply String.eqb_refl].
Qed.

Lemma has_date_filter_spec (q : string) :
  Policy._has_date_filter q = true <-> Policy.date_bounded q.
Proof.
  unfold Policy._has_date_filter, Policy.date_bounded.
  rewrite existsb_exists. split.
  - intros (d & Hd & (a & b & ->)%contains_spec).
    exists d, a, b. split; [by apply list_elem_of_In | done].
  - intros (d & a & b & Hd & ->). exists d.
    split; [by apply list_elem_of_In | apply contains_app].
Qed.

Lemma is_sensitive_field_spec (k : string) :
  Policy._is_sensitive_field k = true <-> Policy.matches_sensitive_pattern k.
Proof.
  unfold Policy._is_sensitive_field, Policy.matches_sensitive_pattern,
    search_ignorecase.
  rewrite existsb_exists. split.
  - intros (p & Hp & (a & b & Hk)%contains_spec).
    exists p, a, b. split; [by apply list_elem_of_In | done].
  - intros (p & a & b & Hp & Hk). exists p.
    split; [by apply list_elem_of_In | apply contains_spec; eauto].
Qed.

End StrFacts.

(** * Properties of the policy engine *)

Module PolicyFacts.
Import Config Policy StrFacts.

Lemma check_table_access_denied (t : string) :
  t ∈ DENIED_TABLES ->
  check_table_access t =
    Raise (PolicyError ("Access to table '" +:+ t +:+ "' is denied by policy")).
Proof. intros H. unfold check_table_access. by rewrite decide_True. Qed.

Lemma check_table_access_allowed (t : string) :
  t ∉ DENIED_TABLES -> check_table_access t = Ok tt.
Proof. intros H. unfold check_table_access. by rewrite decide_False. Qed.

(** The limit the code computes before the large-table test. *)
Lemma enforce_query_safety_allowed (t q : string) (l : option Z) (s : Settings) :
  t ∉ DENIED_TABLES ->
  enforce_query_safety t q l s =
    if in_list t (large_table_names s) && negb (_has_date_filter q)
    then Raise (QuerySafetyError
                  ("Table '" +:+ t +:+ "' is large and requires a date-bounded filter "
                   +:+ "(e.g., sys_created_on>=YYYY-MM-DD). "
                   +:+ "Add a date field constraint to your query."))
    else Ok (match l with
             | None => max_row_limit s
             | Some r => if r >? max_row_limit s then max_row_limit s else r
             end).
Proof.
  intros H. unfold enforce_query_safety.
  by rewrite (check_table_access_allowed t H).
Qed.

Lemma incident_allowed : "incident" ∉ DENIED_TABLES.
Proof. apply (bool_decide_unpack _). by vm_compute. Qed.

Lemma syslog_allowed : "syslog" ∉ DENIED_TABLES.
Proof. apply (bool_decide_unpack _). by vm_compute. Qed.

(** The masking loop, started on a heap that holds [m0] at [masked]:
    nothing but the dict at [masked] changes, and in it exactly the
    sensitive keys among [keys] hold the mask. *)
Lemma mask_loop_frame (masked : loc) (keys : list string) (h : heap) (l : loc) :
  l <> masked -> mask_loop masked keys h !! l = h !! l.
Proof.
  intros Hl. revert h. induction keys as [|k keys IH]; intros h; [done|].
  unfold mask_loop in *. cbn [fold_left]. rewrite IH.
  destruct (_is_sensitive_field k); [|done].
  unfold setitem. by rewrite lookup_alter_ne.
Qed.

Lemma mask_loop_masked (masked : loc) (keys : list string) (h : heap)
    (m0 : gmap string value) :
  h !! masked = Some m0 ->
  exists m,
    mask_loop masked keys h !! masked = Some m /\
    forall k,
      m !! k =
        if decide (k ∈ keys /\ _is_sensitive_field k = true)
        then Some MASK_VALUE else m0 !! k.
Proof.
  revert h m0. induction keys as [|k0 keys IH]; intros h m0 Hm0.
  - exists m0. split; [done|]. intros k.
    rewrite decide_False; [done|]. intros [H _]. by apply elem_of_nil in H.
  - unfold mask_loop in *. cbn [fold_left].
    destruct (_is_sensitive_field k0) eqn:Hk0.
    + destruct (IH (setitem h masked k0 MASK_VALUE) (<[k0 := MASK_VALUE]> m0))
        as (m & Hm & Hlook).
      { unfold setitem. by rewrite lookup_alter_eq, Hm0. }
      exists m. split; [done|]. intros k. rewrite Hlook.
      destruct (decide (k = k0)) as [->|Hne].
      * rewrite lookup_insert_eq.
        rewrite (decide_True (P := k0 ∈ k0 :: keys /\ _)); [|split; [left|done]].
        by case_decide.
      * rewrite lookup_insert_ne by done.
        apply decide_ext. rewrite elem_of_cons. tauto.
    + destruct (IH h m0 Hm0) as (m & Hm & Hlook).
      exists m. split; [done|]. intros k. rewrite Hlook.
      apply decide_ext. rewrite elem_of_cons.
      split; [tauto|]. intros [[->|Hin] Hs]; [congruence|tauto].
Qed.

End PolicyFacts.

Import Config Policy.

(** Claim C3.  A table on the static deny list is blocked on every path:
    [check_table_access] raises [PolicyError]; [enforce_query_safety] raises
    [PolicyError] whatever the filter, the limit (given or not) and the
    settings; [can_write] is false whatever the settings and the override. *)
Theorem denied_table_always_blocked (t : string) (Hdenied : t ∈ DENIED_TABLES) :
  (exists msg, check_table_access t = Raise (PolicyError msg)) /\
  (forall (q : string) (l : option Z) (s : Settings),
      exists msg, enforce_query_safety t q l s = Raise (PolicyError msg)) /\
  (forall (s : Settings) (override : bool), can_write t s override = false).
Proof.
  split; [|split].
  - eexists. by apply PolicyFacts.check_table_access_denied.
  - intros q l s. eexists. unfold enforce_query_safety.
    by rewrite (PolicyFacts.check_table_access_denied t Hdenied).
  - intros s override. unfold can_write. by rewrite decide_True.
Qed.

Lemma denied_table_always_blocked_witness :
  ("sys_user_token" ∈ DENIED_TABLES) /\
  ((exists msg, check_table_access "sys_user_token" = Raise (PolicyError msg)) /\
   (forall (q : string) (l : option Z) (s : Settings),
       exists msg,
         enforce_query_safety "sys_user_token" q l s = Raise (PolicyError msg)) /\
   (forall (s : Settings) (override : bool),
       can_write "sys_user_token" s override = false)).
Proof.
  assert (H : "sys_user_token" ∈ DENIED_TABLES)
    by (apply (bool_decide_unpack _); vm_compute; exact I).
  split; [exact H | exact (denied_table_always_blocked "sys_user_token" H)].
Defined.

(** Claim C4, as stated, fails: a table off the deny list can be a large
    table, and then a filter without a date field makes the call raise
    instead of returning a limit.  Input: table ["syslog"], filter
    ["level=0"], limit [500], the default settings. *)
Lemma effective_limit_counterexample :
  ~ (forall (t q : string) (r : Z) (s : Settings),
        t ∉ DENIED_TABLES -> r > max_row_limit s ->
        enforce_query_safety t q (Some r) s = Ok (max_row_limit s)).
Proof.
  intros H.
  specialize (H "syslog" "level=0" 500 default_settings
                PolicyFacts.syslog_allowed ltac:(reflexivity)).
  vm_compute in H. discriminate H.
Qed.

(** Claim C4, amended.  For a table off the deny list, and when the call
    passes the large-table test (the table is not a large table, or the
    filter names a date field), [enforce_query_safety] returns a limit:
    [max_row_limit] when the requested limit is greater, the requested limit
    when it is at most [max_row_limit], [max_row_limit] when none is given;
    and the returned limit is never greater than a requested one. *)
Theorem effective_limit_capped
    (t q : string) (l : option Z) (s : Settings)
    (Hallowed : t ∉ DENIED_TABLES)
    (Hdate : t ∈ large_table_names s -> date_bounded q) :
  exists eff,
    enforce_query_safety t q l s = Ok eff /\
    match l with
    | None => eff = max_row_limit s
    | Some r =>
        (r > max_row_limit s -> eff = max_row_limit s) /\
        (r <= max_row_limit s -> eff = r) /\
        eff <= r
    end.
Proof.
  rewrite (PolicyFacts.enforce_query_safety_allowed t q l s Hallowed).
  assert (in_list t (large_table_names s) && negb (_has_date_filter q) = false) as ->.
  { apply andb_false_iff.
    destruct (in_list t (large_table_names s)) eqn:E; [right|by left].
    apply StrFacts.in_list_spec, Hdate, StrFacts.has_date_filter_spec in E.
    by rewrite E. }
  eexists. split; [reflexivity|].
  destruct l as [r|]; [|done].
  destruct (Z.gtb_spec r (max_row_limit s)); lia.
Qed.

Lemma effective_limit_capped_witness :
  exists eff,
    enforce_query_safety "syslog" "level=0^sys_created_on>=2026-01-01" (Some 500)
      default_settings = Ok eff /\
    ((500 > max_row_limit default_settings -> eff = max_row_limit default_settings) /\
     (500 <= max_row_limit default_settings -> eff = 500) /\
     eff <= 500).
Proof.
  apply (effective_limit_capped "syslog" "level=0^sys_created_on>=2026-01-01"
           (Some 500) default_settings).
  - exact PolicyFacts.syslog_allowed.
  - intros _. exists "sys_created_on", "level=0^", ">=2026-01-01".
    split; [|reflexivity]. apply (bool_decide_unpack _). vm_compute. exact I.
Defined.

(** Claim C5, as stated, fails: [LARGE_TABLE_NAMES_CSV] may name a table of
    the deny list, and for such a table the call raises [PolicyError] with
    or without a date field in the filter.  Input: table ["sys_user_token"]
    with settings whose large tables are ["syslog, sys_user_token"], filter
    ["sys_created_on>=2026-01-01"]. *)
Lemma large_table_date_filter_counterexample :
  ~ (forall (t : string) (s : Settings) (l : option Z),
        t ∈ large_table_names s ->
        forall a b field : string,
          field ∈ _DATE_FIELD_PATTERNS ->
          exists eff, enforce_query_safety t (a +:+ field +:+ b) l s = Ok eff).
Proof.
  intros H.
  destruct (H "sys_user_token" Examples.denied_large_settings None
              ltac:(apply (bool_decide_unpack _); vm_compute; exact I)
              "" ">=2026-01-01" "sys_created_on"
              ltac:(apply (bool_decide_unpack _); vm_compute; exact I))
    as [eff Heff].
  vm_compute in Heff. discriminate Heff.
Qed.

(** Claim C5, amended.  For a table that is in [large_table_names] and is
    not on the deny list, and for every limit: [enforce_query_safety] raises
    [QuerySafetyError] exactly when no configured date field name occurs in
    the filter string, and a filter string into which one configured date
    field name is inserted at any position makes the call return. *)
Theorem large_table_requires_date_filter
    (t : string) (s : Settings) (l : option Z)
    (Hlarge : t ∈ large_table_names s)
    (Hallowed : t ∉ DENIED_TABLES) :
  (forall q : string,
      (exists msg, enforce_query_safety t q l s = Raise (QuerySafetyError msg))
      <-> ~ date_bounded q) /\
  (forall a b field : string,
      field ∈ _DATE_FIELD_PATTERNS ->
      exists eff, enforce_query_safety t (a +:+ field +:+ b) l s = Ok eff).
Proof.
  apply StrFacts.in_list_spec in Hlarge.
  split.
  - intros q.
    rewrite (PolicyFacts.enforce_query_safety_allowed t q l s Hallowed), Hlarge.
    rewrite <- StrFacts.has_date_filter_spec.
    destruct (_has_date_filter q); simpl; split.
    + by intros [msg Hmsg].
    + by intros [].
    + done.
    + intros _. by eexists.
  - intros a b field Hfield.
    rewrite (PolicyFacts.enforce_query_safety_allowed _ _ l s Hallowed), Hlarge.
    assert (_has_date_filter (a +:+ field +:+ b) = true) as ->.
    { apply StrFacts.has_date_filter_spec. by exists field, a, b. }
    by eexists.
Qed.

Lemma large_table_requires_date_filter_witness :
  ("syslog" ∈ large_table_names default_settings) /\
  ("syslog" ∉ DENIED_TABLES) /\
  (forall q : string,
      (exists msg, enforce_query_safety "syslog" q (Some 50) default_settings
                   = Raise (QuerySafetyError msg))
      <-> ~ date_bounded q) /\
  (forall a b field : string,
      field ∈ _DATE_FIELD_PATTERNS ->
      exists eff,
        enforce_query_safety "syslog" (a +:+ field +:+ b) (Some 50) default_settings
        = Ok eff).
Proof.
  assert (H1 : "syslog" ∈ large_table_names default_settings)
    by (apply (bool_decide_unpack _); vm_compute; exact I).
  split; [exact H1|]. split; [exact PolicyFacts.syslog_allowed|].
  exact (large_table_requires_date_filter "syslog" default_settings (Some 50) H1
           PolicyFacts.syslog_allowed).
Defined.

(** Claim C9.  For a table off the deny list, [can_write] is false when the
    settings flag production and no override is requested, true when they
    flag production and the override is requested, and true whatever the
    override when they do not flag production.  [can_write] is a total
    function into [bool]: no input makes it raise. *)
Theorem can_write_decision
    (t : string) (s : Settings) (Hallowed : t ∉ DENIED_TABLES) :
  (is_production s = true -> can_write t s false = false) /\
  (is_production s = true -> can_write t s true = true) /\
  (is_production s = false -> forall override, can_write t s override = true).
Proof.
  unfold can_write. destruct (decide (t ∈ DENIED_TABLES)); [done|].
  split; [|split].
  - intros H. by rewrite H.
  - intros H. by rewrite H.
  - intros H override. rewrite H. by destruct override.
Qed.

Lemma can_write_decision_witness :
  ("incident" ∉ DENIED_TABLES) /\
  can_write "incident" Examples.prod_settings false = false /\
  can_write "incident" Examples.prod_settings true = true /\
  can_write "incident" default_settings false = true.
Proof.
  pose proof (can_write_decision "incident" Examples.prod_settings
                PolicyFacts.incident_allowed) as (H1 & H2 & _).
  pose proof (can_write_decision "incident" default_settings
                PolicyFacts.incident_allowed) as (_ & _ & H3).
  split; [exact PolicyFacts.incident_allowed|].
  split; [exact (H1 eq_refl)|]. split; [exact (H2 eq_refl)|].
  exact (H3 eq_refl false).
Defined.

(** Claim C6.  [mask_sensitive_fields] returns a new dict: it has the keys
    of the record; a key that matches a sensitivity pattern, in any case of
    its letters, holds [MASK_VALUE] whatever value of whatever type the
    record holds there; any other key holds the record's value; the record
    itself, and every other object of the heap, is as before the call. *)
Theorem mask_sensitive_fields_copy
    (h : heap) (record : loc) (items : gmap string value)
    (Hrecord : h !! record = Some items) :
  exists (h' : heap) (masked : loc) (items' : gmap string value),
    mask_sensitive_fields h record = Some (h', masked) /\
    masked <> record /\
    h' !! record = Some items /\
    (forall l, l <> masked -> h' !! l = h !! l) /\
    h' !! masked = Some items' /\
    dom items' = dom items /\
    (forall k v, items !! k = Some v ->
       (matches_sensitive_pattern k -> items' !! k = Some MASK_VALUE) /\
       (~ matches_sensitive_pattern k -> items' !! k = Some v)).
Proof.
  unfold mask_sensitive_fields. rewrite Hrecord.
  set (masked := fresh (dom h)).
  assert (Hfresh : h !! masked = None).
  { apply not_elem_of_dom, is_fresh. }
  assert (Hne : masked <> record) by congruence.
  destruct (PolicyFacts.mask_loop_masked masked (map_to_list items).*1
              (<[masked := items]> h) items) as (items' & Hm & Hlook).
  { apply lookup_insert_eq. }
  assert (Hkeys : forall k, k ∈ (map_to_list items).*1 <-> is_Some (items !! k)).
  { intros k. rewrite list_elem_of_fmap. split.
    - intros ([k' v] & -> & Hin). apply elem_of_map_to_list in Hin. by exists v.
    - intros [v Hv]. exists (k, v). split; [done|]. by apply elem_of_map_to_list. }
  exists (mask_loop masked (map_to_list items).*1 (<[masked := items]> h)),
    masked, items'.
  split; [done|]. split; [done|]. split.
  { rewrite PolicyFacts.mask_loop_frame by done. by rewrite lookup_insert_ne. }
  split.
  { intros l Hl. rewrite PolicyFacts.mask_loop_frame by done.
    by rewrite lookup_insert_ne. }
  split; [done|]. split.
  - apply set_eq. intros k. rewrite !elem_of_dom, Hlook.
    case_decide as Hk; [|done].
    destruct Hk as [Hk _]. apply Hkeys in Hk. split; [done|]. by eexists.
  - intros k v Hv. rewrite Hlook, <- !StrFacts.is_sensitive_field_spec. split.
    + intros Hs. rewrite decide_True; [done|]. split; [|done].
      apply Hkeys. by exists v.
    + intros Hs. rewrite decide_False; [done|]. by intros [_ ?].
Qed.

(** A record whose field [Api_Key] holds the [int] 3: the copy holds the
    mask there and the name as it was; the record keeps the [int]. *)
Lemma mask_sensitive_fields_copy_witness :
  exists (h' : heap) (masked : loc) (items' : gmap string value),
    mask_sensitive_fields Examples.record_heap 5%positive = Some (h', masked) /\
    masked <> 5%positive /\
    h' !! 5%positive = Some {[ "name" := VStr "x"; "Api_Key" := VInt 3 ]} /\
    h' !! masked = Some items' /\
    items' !! "Api_Key" = Some (VStr "***MASKED***") /\
    items' !! "name" = Some (VStr "x").
Proof.
  destruct (mask_sensitive_fields_copy Examples.record_heap 5%positive _ eq_refl)
    as (h' & masked & items' & Hrun & Hne & Hrecord & _ & Hmasked & _ & Hitems).
  exists h', masked, items'.
  split; [exact Hrun|]. split; [exact Hne|]. split; [exact Hrecord|].
  split; [exact Hmasked|]. split.
  - apply (Hitems "Api_Key" (VInt 3)); [reflexivity|].
    exists "api_key", "", "". split; [|reflexivity].
    apply (bool_decide_unpack _). vm_compute. exact I.
  - apply (Hitems "name" (VStr "x")); [reflexivity|].
    rewrite <- StrFacts.is_sensitive_field_spec. vm_compute. discriminate.
Defined.

(** * Properties of the workflow state *)

Module StateFacts.
Import State.

Lemma Qgtb_true (a b : Q) : Qgtb a b = true <-> (b < a)%Q.
Proof.
  unfold Qgtb. rewrite negb_true_iff, <- not_true_iff_false, Qle_bool_iff.
  split; [apply Qnot_le_lt | apply Qlt_not_le].
Qed.

Lemma Qgtb_false (a b : Q) : Qgtb a b = false <-> (a <= b)%Q.
Proof. unfold Qgtb. by rewrite negb_false_iff, Qle_bool_iff. Qed.

Section PreviewTokenStore.
Context {Payload : Type}.
Implicit Types (st : PreviewTokenStore Payload) (e : Entry Payload).

(** On a computed age that is a number, the test is the exact comparison
    of the number with the TTL. *)
Lemma is_expired_finite st now e a :
  float_value (age now (created_at e)) = Some a ->
  _is_expired st now e = Qgtb a (inject_Z (_ttl st)).
Proof.
  unfold _is_expired, float_value, float_gt_int.
  destruct (FloatOps.Prim2SF (age now (created_at e))); intros [= <-]; done.
Qed.

Lemma is_expired_true st now e a :
  float_value (age now (created_at e)) = Some a ->
  _is_expired st now e = true <-> (inject_Z (_ttl st) < a)%Q.
Proof. intros H. rewrite (is_expired_finite st now e a H). apply Qgtb_true. Qed.

Lemma is_expired_false st now e a :
  float_value (age now (created_at e)) = Some a ->
  _is_expired st now e = false <-> (a <= inject_Z (_ttl st))%Q.
Proof. intros H. rewrite (is_expired_finite st now e a H). apply Qgtb_false. Qed.

Lemma is_expired_within st now e :
  within_ttl (_ttl st) now (created_at e) -> _is_expired st now e = false.
Proof. intros (a & Ha & Hle). by apply (is_expired_false st now e a Ha). Qed.

Lemma get_missing st now tok :
  _store st !! tok = None -> get st now tok = (st, None).
Proof. intros H. unfold get. by rewrite H. Qed.

Lemma consume_missing st now tok :
  _store st !! tok = None -> consume st now tok = (st, None).
Proof. intros H. unfold consume. by rewrite H. Qed.

(** Whatever a successful [consume] returns, the token is gone from the
    store it leaves. *)
Lemma consume_removes st now tok st' r :
  consume st now tok = (st', r) -> _store st' !! tok = None.
Proof.
  unfold consume. destruct (_store st !! tok) as [e|] eqn:E.
  - destruct (_is_expired st now e); intros [= <- _]; apply lookup_delete_eq.
  - by intros [= <- _].
Qed.

(** One call that does not create [tok] keeps [tok] out of the store, and
    returns [None] if it reads [tok]. *)
Lemma step_absent st now c tok :
  _store st !! tok = None -> creates tok c = false ->
  _store (step st now c).1 !! tok = None /\
  (reads tok c = true -> (step st now c).2 = None).
Proof.
  intros Habs Hc. destruct c as [t p|t|t]; simpl in *.
  - apply String.eqb_neq in Hc. split; [|done]. by rewrite lookup_insert_ne.
  - split.
    + unfold get. destruct (_store st !! t) as [e|]; [|done].
      destruct (_is_expired st now e); [|done]. simpl.
      destruct (decide (t = tok)) as [->|];
        [apply lookup_delete_eq | by rewrite lookup_delete_ne].
    + intros ->%String.eqb_eq. by rewrite get_missing.
  - split.
    + unfold consume. destruct (_store st !! t) as [e|]; [|done].
      destruct (_is_expired st now e); simpl;
        (destruct (decide (t = tok)) as [->|];
         [apply lookup_delete_eq | by rewrite lookup_delete_ne]).
    + intros ->%String.eqb_eq. by rewrite consume_missing.
Qed.

(** A token that is not in the store, and is not created again, is never
    read with success. *)
Lemma absent_stays_absent st tok (calls : list (float * call Payload)) :
  _store st !! tok = None ->
  Forall (fun nc => creates tok nc.2 = false) calls ->
  Forall (fun cr => reads tok cr.1 = true -> cr.2 = None) (run_calls st calls).2.
Proof.
  revert st. induction calls as [|[now c] calls IH]; intros st Habs Hcalls.
  - constructor.
  - apply Forall_cons in Hcalls as [Hc Hcalls]. simpl in Hc.
    destruct (step_absent st now c tok Habs Hc) as [Habs' Hres].
    cbn [run_calls]. destruct (step st now c) as [st1 r] eqn:Hstep.
    specialize (IH st1 Habs' Hcalls).
    destruct (run_calls st1 calls) as [st2 rs]. simpl in *.
    constructor; [exact Hres | exact IH].
Qed.

End PreviewTokenStore.

Lemma track_lookup (st : gmap string (list SeedEntry)) (tag tbl : string)
    (ids : list string) :
  SeededRecordTracker.track st tag tbl ids !! tag =
    Some (default [] (st !! tag) ++ [{| table := tbl; sys_ids := ids |}]).
Proof.
  unfold SeededRecordTracker.track. rewrite lookup_alter_eq.
  destruct (st !! tag) as [entries|] eqn:E.
  - by rewrite E.
  - by rewrite lookup_insert_eq.
Qed.

Lemma track_lookup_ne (st : gmap string (list SeedEntry)) (tag tag' tbl : string)
    (ids : list string) :
  tag <> tag' -> SeededRecordTracker.track st tag tbl ids !! tag' = st !! tag'.
Proof.
  intros Hne. unfold SeededRecordTracker.track. rewrite lookup_alter_ne by done.
  destruct (st !! tag); [done|]. by rewrite lookup_insert_ne.
Qed.

Lemma get_lookup (st : gmap string (list SeedEntry)) (tag : string) :
  SeededRecordTracker.get st tag = st !! tag.
Proof. unfold SeededRecordTracker.get. by destruct (st !! tag). Qed.

End StateFacts.

Import State.

(** Claim C2.  Token lifecycle of [PreviewTokenStore], for every payload
    [p], every store and every generated token; the age of a token is the
    one the store computes, the float [now - created_at]:
    - [consume] of the token that [create] returned, at an age within the
      TTL, returns [p]; after it, [consume] and [get] of the same token
      return [None] at any time;
    - a token whose age exceeds the TTL makes [get] and [consume] return
      [None], consumed before or not;
    - after a [consume] that returned a payload, no later call that reads
      the token returns one, in any sequence of calls in which the token is
      not created again: a token is consumed with success at most once. *)
Theorem token_lifecycle {Payload : Type}
    (st : PreviewTokenStore Payload) (token : string) (p : Payload)
    (created now : float) (a : Q)
    (Hage : float_value (age now created) = Some a)
    (Hfresh_age : (a <= inject_Z (_ttl st))%Q) :
  let st1 := (create st token created p).1 in
  (create st token created p).2 = token /\
  (exists st2,
      consume st1 now token = (st2, Some p) /\
      forall later, (consume st2 later token).2 = None /\
                    (get st2 later token).2 = None) /\
  (forall (st0 : PreviewTokenStore Payload) (tok : string) (e : Entry Payload)
          (t : float) (a0 : Q),
      _store st0 !! tok = Some e ->
      float_value (age t (created_at e)) = Some a0 ->
      (inject_Z (_ttl st0) < a0)%Q ->
      (get st0 t tok).2 = None /\ (consume st0 t tok).2 = None) /\
  (forall (st0 st' : PreviewTokenStore Payload) (tok : string) (t : float) (p0 : Payload),
      consume st0 t tok = (st', Some p0) ->
      forall calls : list (float * call Payload),
        Forall (fun nc => creates tok nc.2 = false) calls ->
        Forall (fun cr => reads tok cr.1 = true -> cr.2 = None)
               (run_calls st' calls).2).
Proof.
  intros st1. split; [done|]. split; [|split].
  - assert (Hc : consume st1 now token =
                 ({| _ttl := _ttl st; _store := delete token (_store st1) |}, Some p)).
    { unfold consume, st1. simpl. rewrite lookup_insert_eq.
      assert (_is_expired
                {| _ttl := _ttl st;
                   _store := <[token := {| payload := p; created_at := created |}]>
                               (_store st) |}
                now {| payload := p; created_at := created |} = false) as ->; [|done].
      by apply (StateFacts.is_expired_false _ _ _ a). }
    eexists. split; [exact Hc|]. intros later.
    rewrite StateFacts.consume_missing, StateFacts.get_missing;
      [done | apply lookup_delete_eq..].
  - intros st0 tok e t a0 He Ha0 Hold.
    apply (StateFacts.is_expired_true st0 t e a0 Ha0) in Hold.
    unfold get, consume. by rewrite He, Hold.
  - intros st0 st' tok t p0 Hc calls Hcalls.
    apply StateFacts.absent_stays_absent; [|done].
    by eapply StateFacts.consume_removes.
Qed.

(** At the clock readings 0.3 and 300.3 the computed age is the float 300,
    although the exact difference of the two floats is above 300: the
    token is within the TTL of 300.  At 10 and 310.5 the age is 300.5. *)
Lemma token_lifecycle_witness :
  (exists st2,
      consume (create Examples.token_store "tok-1" 0x1.3333333333333p-2%float
                 "change-set").1
        0x1.2c4cccccccccdp+8%float "tok-1"
        = (st2, Some "change-set") /\
      forall later, (consume st2 later "tok-1").2 = None /\
                    (get st2 later "tok-1").2 = None) /\
  (get Examples.token_store_1 310.5%float "tok-1").2 = None /\
  (consume Examples.token_store_1 310.5%float "tok-1").2 = None.
Proof.
  pose proof (token_lifecycle Examples.token_store "tok-1" "change-set"
                0x1.3333333333333p-2%float 0x1.2c4cccccccccdp+8%float
                _ eq_refl ltac:(vm_compute; discriminate)) as (_ & Hconsume & Hold & _).
  split; [exact Hconsume|].
  exact (Hold Examples.token_store_1 "tok-1"
           {| payload := "change-set"; created_at := 10%float |} 310.5%float
           _ eq_refl eq_refl ltac:(vm_compute; reflexivity)).
Defined.

(** Claim C10.  The expiry test is strict.  For a token in the store whose
    computed age, the float [now - created_at], is the number [a]: a [get]
    or a [consume] at an age equal to the TTL finds the token active and
    returns its payload ([get] leaves the store as it is); the call returns
    [None] exactly when the age is greater than the TTL, and then the token
    is deleted from the store. *)
Theorem expiry_boundary_strict {Payload : Type}
    (st : PreviewTokenStore Payload) (token : string) (e : Entry Payload)
    (now : float) (a : Q)
    (Hentry : _store st !! token = Some e)
    (Hage : float_value (age now (created_at e)) = Some a) :
  ((a == inject_Z (_ttl st))%Q ->
     get st now token = (st, Some (payload e)) /\
     (consume st now token).2 = Some (payload e)) /\
  ((get st now token).2 = None <-> (inject_Z (_ttl st) < a)%Q) /\
  ((consume st now token).2 = None <-> (inject_Z (_ttl st) < a)%Q) /\
  ((inject_Z (_ttl st) < a)%Q ->
     _store (get st now token).1 !! token = None /\
     _store (consume st now token).1 !! token = None).
Proof.
  unfold get, consume. rewrite Hentry.
  rewrite <- !(StateFacts.is_expired_true st now e a Hage).
  split; [|split; [|split]].
  - intros Heq.
    assert (_is_expired st now e = false) as ->; [|done].
    apply (StateFacts.is_expired_false st now e a Hage). rewrite Heq. apply Qle_refl.
  - by destruct (_is_expired st now e).
  - by destruct (_is_expired st now e).
  - intros ->. simpl. split; apply lookup_delete_eq.
Qed.

(** A token created at the clock reading 10, in a store with a TTL of 300:
    at 310 the age is 300 and the token is active; at 310.5 the age is 300.5
    and the token is expired and deleted.  A token created at 0.3 and read
    at 300.3 is active: the float [300.3 - 0.3] is 300. *)
Lemma expiry_boundary_strict_witness :
  get Examples.token_store_1 310%float "tok-1"
    = (Examples.token_store_1, Some "change-set") /\
  (consume Examples.token_store_1 310%float "tok-1").2 = Some "change-set" /\
  (get Examples.token_store_1 310.5%float "tok-1").2 = None /\
  _store (get Examples.token_store_1 310.5%float "tok-1").1 !! "tok-1" = None /\
  (get (create Examples.token_store "tok-1" 0x1.3333333333333p-2%float
          "change-set").1
     0x1.2c4cccccccccdp+8%float "tok-1").2 = Some "change-set".
Proof.
  pose proof (expiry_boundary_strict Examples.token_store_1 "tok-1"
                {| payload := "change-set"; created_at := 10%float |} 310%float
                _ eq_refl eq_refl) as (Hat & _).
  pose proof (expiry_boundary_strict Examples.token_store_1 "tok-1"
                {| payload := "change-set"; created_at := 10%float |} 310.5%float
                _ eq_refl eq_refl) as (_ & Hget & _ & Hdel).
  pose proof (expiry_boundary_strict
                (create Examples.token_store "tok-1" 0x1.3333333333333p-2%float
                   "change-set").1
                "tok-1"
                {| payload := "change-set";
                   created_at := 0x1.3333333333333p-2%float |}
                0x1.2c4cccccccccdp+8%float
                _ eq_refl eq_refl) as (Hround & _).
  destruct (Hat ltac:(vm_compute; reflexivity)) as [H1 H2].
  destruct (Hround ltac:(vm_compute; reflexivity)) as [H3 _].
  split; [exact H1|]. split; [exact H2|].
  split; [apply Hget; vm_compute; reflexivity|].
  split; [apply Hdel; vm_compute; reflexivity|].
  by rewrite H3.
Defined.

(** Claim C7.  [SeededRecordTracker]: two [track] calls in a row on one tag
    add their two entries, in the order of the calls, after what the tag
    already held, so that [get] returns both; [get] of a tag the store does
    not hold returns [None]; after [remove] of a tag, [get] of it returns
    [None] whatever number of entries it held, and every other tag is as
    before. *)
Theorem seed_ledger_behaviour
    (st : gmap string (list SeedEntry)) (tag : string)
    (table1 table2 : string) (ids1 ids2 : list string) :
  SeededRecordTracker.get
    (SeededRecordTracker.track (SeededRecordTracker.track st tag table1 ids1)
       tag table2 ids2) tag
  = Some (default [] (st !! tag)
          ++ [ {| table := table1; sys_ids := ids1 |};
               {| table := table2; sys_ids := ids2 |} ]) /\
  SeededRecordTracker.get
    (SeededRecordTracker.track
       (SeededRecordTracker.track SeededRecordTracker.init tag table1 ids1)
       tag table2 ids2) tag
  = Some [ {| table := table1; sys_ids := ids1 |};
           {| table := table2; sys_ids := ids2 |} ] /\
  (tag ∉ dom st <-> SeededRecordTracker.get st tag = None) /\
  SeededRecordTracker.get (SeededRecordTracker.remove st tag) tag = None /\
  (forall tag', tag' <> tag ->
     SeededRecordTracker.get (SeededRecordTracker.remove st tag) tag'
     = SeededRecordTracker.get st tag').
Proof.
  rewrite !StateFacts.get_lookup, !StateFacts.track_lookup.
  split; [|split; [|split; [|split]]].
  - simpl. by rewrite <- app_assoc.
  - done.
  - apply not_elem_of_dom.
  - apply lookup_delete_eq.
  - intros tag' Hne. rewrite !StateFacts.get_lookup.
    unfold SeededRecordTracker.remove. by rewrite lookup_delete_ne.
Qed.

(** * Facts about grouping, sorting and traversal *)

Module GroupFacts.
Import Groups.

Section GroupFacts.
Context {A : Type}.
Implicit Types (groups : list (string * list A)) (xs g : list A).

Lemma assoc_append_to k key x groups :
  assoc k (append_to key x groups) =
    if decide (k = key) then Some (default [] (assoc k groups) ++ [x])
    else assoc k groups.
Proof.
  induction groups as [|[k' g] rest IH]; simpl.
  - destruct (String.eqb_spec key k) as [->|Hne]; case_decide;
      try done; congruence.
  - destruct (String.eqb_spec k' key) as [->|Hne]; simpl.
    + destruct (String.eqb_spec key k) as [->|Hne']; case_decide;
        try done; congruence.
    + destruct (String.eqb_spec k' k) as [->|Hne'].
      * by rewrite decide_False.
      * done.
Qed.

Lemma keys_append_to key x groups :
  (append_to key x groups).*1 =
    if decide (key ∈ groups.*1) then groups.*1 else groups.*1 ++ [key].
Proof.
  induction groups as [|[k' g] rest IH]; cbn [append_to].
  - rewrite decide_False; [done|]. apply not_elem_of_nil.
  - destruct (String.eqb_spec k' key) as [->|Hne]; rewrite !fmap_cons; cbn [fst].
    + rewrite decide_True; [done|]. left.
    + rewrite IH. destruct (decide (key ∈ rest.*1)) as [Hin|Hnin].
      * rewrite decide_True; [done|]. by right.
      * rewrite decide_False; [done|].
        rewrite elem_of_cons. intros [->|?]; done.
Qed.

Lemma assoc_None k groups : assoc k groups = None <-> k ∉ groups.*1.
Proof.
  induction groups as [|[k' g] rest IH]; simpl.
  - split; [intros _; apply not_elem_of_nil | done].
  - rewrite not_elem_of_cons.
    destruct (String.eqb_spec k' k) as [->|Hne]; [by split; [|intros []]|].
    rewrite IH. split; [by split | by intros []].
Qed.

Lemma assoc_Some k g groups :
  NoDup groups.*1 -> assoc k groups = Some g <-> (k, g) ∈ groups.
Proof.
  induction groups as [|[k' g'] rest IH]; simpl; intros Hnd.
  - split; [done | intros H; by apply elem_of_nil in H].
  - apply NoDup_cons in Hnd as [Hk' Hnd]. rewrite elem_of_cons.
    destruct (String.eqb_spec k' k) as [->|Hne].
    + split; [intros [= ->]; by left|].
      intros [[= ->]|Hin]; [done|].
      exfalso. apply Hk'. apply list_elem_of_fmap. by exists (k, g).
    + rewrite (IH Hnd). split; [by right|]. intros [[= -> ->]|?]; done.
Qed.

Section GroupBy.
Context (key_of : A -> string).

Local Abbreviation with_key := (with_key key_of).
Local Abbreviation grouped := (grouped key_of).

Lemma with_key_snoc k xs x :
  with_key k (xs ++ [x]) =
    if decide (k = key_of x) then with_key k xs ++ [x] else with_key k xs.
Proof.
  unfold with_key. rewrite List.filter_app. simpl.
  case_bool_decide; case_decide; try congruence.
  by rewrite app_nil_r.
Qed.

Lemma grouped_step groups xs x :
  grouped groups xs -> grouped (append_to (key_of x) x groups) (xs ++ [x]).
Proof.
  intros [Hnd Hassoc]. split.
  - rewrite keys_append_to. case_decide as Hin; [done|].
    apply NoDup_app. split; [done|]. split; [|apply NoDup_singleton].
    intros k Hk ->%list_elem_of_singleton. done.
  - intros k. rewrite assoc_append_to, with_key_snoc, Hassoc.
    case_decide as Hk; [|done].
    destruct (with_key k xs) as [|y g]; simpl; [done|].
    by destruct (g ++ [x]) eqn:E; [destruct g|].
Qed.

Lemma grouped_fold xs groups seen :
  grouped groups seen ->
  grouped (fold_left (fun gs x => append_to (key_of x) x gs) xs groups)
          (seen ++ xs).
Proof.
  revert groups seen. induction xs as [|x xs IH]; intros groups seen H; simpl.
  - by rewrite app_nil_r.
  - replace (seen ++ x :: xs) with ((seen ++ [x]) ++ xs)
      by (by rewrite <- app_assoc).
    apply IH. by apply grouped_step.
Qed.

Lemma group_by_grouped xs : grouped (group_by key_of xs) xs.
Proof.
  apply (grouped_fold xs [] []). split; [constructor|]. intros k. done.
Qed.

Lemma group_by_NoDup xs : NoDup (group_by key_of xs).*1.
Proof. apply group_by_grouped. Qed.

(** The groups are exactly the non-empty classes of the key. *)
Lemma elem_of_group_by k g xs :
  (k, g) ∈ group_by key_of xs <-> g = with_key k xs /\ g <> [].
Proof.
  destruct (group_by_grouped xs) as [Hnd Hassoc].
  rewrite <- (assoc_Some k g _ Hnd), Hassoc.
  destruct (with_key k xs) as [|y l]; split.
  - done.
  - by intros [-> ?].
  - by intros [= <-].
  - by intros [-> _].
Qed.

Lemma with_key_nonempty k xs :
  with_key k xs <> [] <-> exists x, x ∈ xs /\ key_of x = k.
Proof.
  unfold with_key. split.
  - destruct (List.filter _ xs) as [|y l] eqn:E; [done|]. intros _.
    assert (Hy : In y (List.filter (fun x => bool_decide (key_of x = k)) xs))
      by (rewrite E; by left).
    apply List.filter_In in Hy as [Hy Hk]. exists y.
    split; [by apply list_elem_of_In | by apply bool_decide_eq_true in Hk].
  - intros (x & Hx & Hk) E.
    assert (Hin : In x (List.filter (fun x => bool_decide (key_of x = k)) xs)).
    { apply List.filter_In. split; [by apply list_elem_of_In|].
      by apply bool_decide_eq_true. }
    by rewrite E in Hin.
Qed.

End GroupBy.
End GroupFacts.
End GroupFacts.

Module SortFacts.
Section SortFacts.
Context {A : Type} (key : A -> Z).

Lemma insert_by_perm (x : A) (l : list A) : insert_by key x l ≡ₚ x :: l.
Proof.
  induction l as [|y l IH]; simpl; [done|].
  destruct (key x <=? key y); [done|].
  rewrite IH. apply Permutation_swap.
Qed.

Lemma sorted_by_perm (l : list A) : sorted_by key l ≡ₚ l.
Proof.
  induction l as [|x l IH]; simpl; [done|].
  by rewrite insert_by_perm, IH.
Qed.

Lemma insert_by_sorted (x : A) (l : list A) :
  StronglySorted (fun a b => key a <= key b) l ->
  StronglySorted (fun a b => key a <= key b) (insert_by key x l).
Proof.
  induction l as [|y l IH]; simpl; intros Hl.
  - repeat constructor.
  - apply StronglySorted_cons in Hl as [Hy Hl].
    destruct (Z.leb_spec (key x) (key y)) as [Hle|Hgt].
    + apply StronglySorted_cons. split; [|by apply StronglySorted_cons].
      constructor; [done|].
      eapply Forall_impl; [exact Hy|]. simpl. intros z Hz. lia.
    + apply StronglySorted_cons. split; [|by apply IH].
      rewrite insert_by_perm. constructor; [lia | done].
Qed.

Lemma sorted_by_sorted (l : list A) :
  StronglySorted (fun a b => key a <= key b) (sorted_by key l).
Proof.
  induction l as [|x l IH]; simpl; [constructor | by apply insert_by_sorted].
Qed.

End SortFacts.

(** A sorted list stays sorted through an element-wise relation that
    carries the order over. *)
Lemma StronglySorted_Forall2 {A B : Type} (P : A -> B -> Prop)
    (R : relation A) (R' : relation B) (l : list A) (k : list B) :
  (forall a a' b b', P a b -> P a' b' -> R a a' -> R' b b') ->
  Forall2 P l k -> StronglySorted R l -> StronglySorted R' k.
Proof.
  intros HR HP. induction HP as [|a b l k Hab HP IH]; intros Hl; [constructor|].
  apply StronglySorted_cons in Hl as [Ha Hl].
  apply StronglySorted_cons. split; [|by apply IH].
  clear IH Hl. induction HP as [|a' b' l k Hab' HP IH]; [constructor|].
  apply Forall_cons in Ha as [Haa' Ha].
  constructor; [by eapply HR | by apply IH].
Qed.

(** [traverse] returns when the function returns on every element, and
    then the results match the elements one by one. *)
Lemma traverse_Forall2 {A B : Type} (f : A -> result B) (l : list A) :
  Forall (fun x => exists y, f x = Ok y) l ->
  exists ys, traverse f l = Ok ys /\ Forall2 (fun x y => f x = Ok y) l ys.
Proof.
  induction 1 as [|x l [y Hy] Hl (ys & Hys & IH)]; simpl.
  - exists []. by split; [|constructor].
  - exists (y :: ys). rewrite Hy, Hys. by split; [|constructor].
Qed.

Lemma ltb_leb (a b : string) : String.ltb a b = true -> String.leb a b = true.
Proof. unfold String.ltb, String.leb. by destruct (String.compare a b). Qed.

Lemma ltb_false_leb (a b : string) : String.ltb a b = false -> String.leb b a = true.
Proof.
  unfold String.ltb, String.leb. rewrite (String.compare_antisym b a).
  by destruct (String.compare a b).
Qed.

Lemma leb_trans (a b c : string) :
  String.leb a b = true -> String.leb b c = true -> String.leb a c = true.
Proof.
  intros H1 H2. apply Is_true_true.
  apply (transitivity (R := String.le) (y := b)); by apply Is_true_true.
Qed.

Lemma leb_refl (a : string) : String.leb a a = true.
Proof. apply Is_true_true. apply (reflexivity (R := String.le)). Qed.

(** [min] returns a member that is below every member. *)
Lemma min_spec (l : list string) (m : string) :
  Str.min l = Some m -> m ∈ l /\ forall t, t ∈ l -> String.leb m t = true.
Proof.
  destruct l as [|x l]; [done|]. simpl. intros [= <-].
  revert x. induction l as [|y l IH]; intros x; simpl.
  - split; [left|]. intros t ->%list_elem_of_singleton. apply leb_refl.
  - destruct (String.ltb y x) eqn:E.
    + destruct (IH y) as [Hin Hle]. split.
      * apply elem_of_cons in Hin as [->|Hin]; [right; left | by do 2 right].
      * intros t [->|Ht]%elem_of_cons; [|by apply Hle].
        eapply leb_trans; [apply Hle; left | by apply ltb_leb].
    + destruct (IH x) as [Hin Hle]. split.
      * apply elem_of_cons in Hin as [->|Hin]; [left | by do 2 right].
      * intros t [->|[->|Ht]%elem_of_cons]%elem_of_cons.
        -- apply Hle. left.
        -- eapply leb_trans; [apply Hle; left | by apply ltb_false_leb].
        -- apply Hle. by right.
Qed.

(** [max] returns a member that is above every member. *)
Lemma max_spec (l : list string) (m : string) :
  Str.max l = Some m -> m ∈ l /\ forall t, t ∈ l -> String.leb t m = true.
Proof.
  destruct l as [|x l]; [done|]. simpl. intros [= <-].
  revert x. induction l as [|y l IH]; intros x; simpl.
  - split; [left|]. intros t ->%list_elem_of_singleton. apply leb_refl.
  - destruct (String.ltb x y) eqn:E.
    + destruct (IH y) as [Hin Hle]. split.
      * apply elem_of_cons in Hin as [->|Hin]; [right; left | by do 2 right].
      * intros t [->|Ht]%elem_of_cons; [|by apply Hle].
        eapply leb_trans; [by apply ltb_leb | apply Hle; left].
    + destruct (IH x) as [Hin Hle]. split.
      * apply elem_of_cons in Hin as [->|Hin]; [left | by do 2 right].
      * intros t [->|[->|Ht]%elem_of_cons]%elem_of_cons.
        -- apply Hle. left.
        -- eapply leb_trans; [by apply ltb_false_leb | apply Hle; left].
        -- apply Hle. by right.
Qed.

End SortFacts.

(** * Properties of the investigations *)

Module AclFacts.
Import AclConflicts GroupFacts.

(** The findings are those of the groups of two members or more. *)
Lemma elem_of_findings_of (f : Finding) (groups : list (string * list record)) :
  f ∈ findings_of groups <->
  exists k g, (k, g) ∈ groups /\ 2 <= len g /\ f = finding k g.
Proof.
  unfold findings_of. rewrite list_elem_of_In, in_flat_map. split.
  - intros ([k g] & Hin & Hf). apply list_elem_of_In in Hin.
    destruct (Z.geb_spec (len g) 2) as [Hge|Hlt]; [|done].
    destruct Hf as [<-|[]]. exists k, g. repeat split; [done|lia].
  - intros (k & g & Hin & Hge & ->).
    exists (k, g). split; [by apply list_elem_of_In|].
    destruct (Z.geb_spec (len g) 2) as [_|Hlt]; [|lia].
    by left.
Qed.

(** One finding per group at most: the names of the findings are among
    the keys, in their order. *)
Lemma names_findings_of_sublist (groups : list (string * list record)) :
  sublist (List.map name (findings_of groups)) groups.*1.
Proof.
  induction groups as [|[k g] rest IH]; simpl; [constructor|].
  destruct (len g >=? 2); simpl.
  - by apply sublist_skip.
  - by apply sublist_cons.
Qed.

Lemma members_pair (a b : record) (n : string) :
  get_default a "name" "" <> get_default b "name" "" ->
  len (members n [a; b]) <= 1.
Proof.
  intros Hne. unfold members, Groups.with_key, len. simpl.
  repeat case_bool_decide; simpl; try lia. congruence.
Qed.

End AclFacts.

Import AclConflicts.

(** Claim C1, as stated, fails: the code never compares conditions.  For
    two ACLs named ["incident.read"] that both have the condition
    ["active=true"], [run] returns one finding, for a group whose members
    do not differ in their conditions. *)
Lemma acl_conflicts_counterexample :
  ~ (forall (acls : list record) (n : string) (r : RunResult),
        run (Examples.client_returning acls) Examples.acl_params = Ok r ->
        ((exists f, f ∈ findings r /\ name f = n) <->
         (2 <= len (members n acls) /\ conditions_differ (members n acls) = true))).
Proof.
  intros H.
  destruct (H Examples.acls_same_condition "incident.read" _ eq_refl) as [H1 _].
  destruct H1 as [_ Hdiffer]; [|by vm_compute in Hdiffer].
  assert (exists f, findings_of
                      (Groups.group_by (fun acl => get_default acl "name" "")
                         Examples.acls_same_condition) = [f]
                    /\ name f = "incident.read") as (f & Hf & Hn).
  { vm_compute. eexists. split; reflexivity. }
  exists f. split; [|done]. simpl. rewrite Hf. left.
Qed.

(** Claim C1, amended.  When the table parameter is given and the query
    returns the ACLs [acls], [run] groups them by name and returns one
    finding for a name exactly when at least two of the ACLs have that name,
    whatever their conditions; no name has two findings; a finding carries
    the number of the ACLs of its name and, for each of them in the order of
    [acls], its [sys_id], [operation], [condition] and [active] fields (the
    empty string for a field the ACL lacks); two ACLs with distinct names
    yield no finding. *)
Theorem acl_conflicts_findings
    (client : ServiceNowClient) (tbl : string) (acls : list record) (total : Z)
    (Htable : tbl <> "")
    (Hquery : query_records client "sys_security_acl" ("nameSTARTSWITH" +:+ tbl)
                ["sys_id"; "name"; "operation"; "condition"; "script"; "active"]
                500 None = Ok (acls, total)) :
  exists r,
    run client {| table := Some tbl |} = Ok r /\
    finding_count r = len (findings r) /\
    NoDup (List.map name (findings r)) /\
    (forall n, (exists f, f ∈ findings r /\ name f = n) <-> 2 <= len (members n acls)) /\
    (forall f, f ∈ findings r ->
       count f = len (members (name f) acls) /\
       AclConflicts.acls f =
         List.map
           (fun a => {| sys_id := get_default a "sys_id" "";
                        operation := get_default a "operation" "";
                        condition := get_default a "condition" "";
                        active := get_default a "active" "" |})
           (members (name f) acls)) /\
    (forall a b, acls = [a; b] ->
       get_default a "name" "" <> get_default b "name" "" ->
       findings r = [] /\ finding_count r = 0).
Proof.
  set (name_of := fun acl : record => get_default acl "name" "").
  set (groups := Groups.group_by name_of acls).
  assert (Hrun : run client {| table := Some tbl |} =
                 Ok {| investigation := "acl_conflicts"; error := None;
                       result_table := Some tbl;
                       finding_count := len (findings_of groups);
                       findings := findings_of groups;
                       total_acls_checked := Some (len acls) |}).
  { unfold run. simpl. destruct tbl; [done|]. by rewrite Hquery. }
  assert (Hiff : forall n,
             (exists f, f ∈ findings_of groups /\ name f = n)
             <-> 2 <= len (members n acls)).
  { intros n. split.
    - intros (f & (k & g & Hin & Hge & ->)%AclFacts.elem_of_findings_of & Hn).
      apply GroupFacts.elem_of_group_by in Hin as [-> _]. simpl in Hn. by subst.
    - intros Hge.
      exists (finding n (members n acls)).
      split; [|done]. apply AclFacts.elem_of_findings_of.
      exists n, (members n acls). repeat split; [|done].
      apply GroupFacts.elem_of_group_by. split; [done|].
      intros E. rewrite E in Hge. by vm_compute in Hge. }
  eexists. split; [exact Hrun|]. simpl.
  split; [done|]. split; [|split; [exact Hiff|split]].
  - eapply sublist_NoDup; [|apply AclFacts.names_findings_of_sublist].
    apply GroupFacts.group_by_NoDup.
  - intros f (k & g & Hin & _ & ->)%AclFacts.elem_of_findings_of.
    by apply GroupFacts.elem_of_group_by in Hin as [-> _].
  - intros a b -> Hne.
    assert (Hnil : findings_of groups = []).
    { destruct (findings_of groups) as [|f fs]; [done|].
      assert (Hf : exists f', f' ∈ f :: fs /\ name f' = name f).
      { exists f. split; [left | done]. }
      apply Hiff in Hf. pose proof (AclFacts.members_pair a b (name f) Hne). lia. }
    by rewrite Hnil.
Qed.

(** Two ACLs named ["incident.read"] with different conditions: one
    finding, which carries the two ACLs field by field. *)
Lemma acl_conflicts_findings_witness :
  exists r,
    run (Examples.client_returning Examples.acls_conflict)
      {| table := Some "incident" |} = Ok r /\
    finding_count r = 1 /\
    List.map name (findings r) = ["incident.read"] /\
    (forall f, f ∈ findings r ->
       count f = 2 /\
       AclConflicts.acls f =
         [ {| sys_id := "acl1"; operation := "read"; condition := "active=true";
              active := "true" |};
           {| sys_id := "acl2"; operation := "read"; condition := "priority=1";
              active := "true" |} ]).
Proof.
  destruct (acl_conflicts_findings
              (Examples.client_returning Examples.acls_conflict)
              "incident" Examples.acls_conflict (len Examples.acls_conflict)
              ltac:(discriminate) eq_refl)
    as (r & Hrun & Hcount & _ & Hiff & Hcarry & _).
  assert (Hname : forall f, f ∈ findings r -> name f = "incident.read").
  { intros f Hf.
    assert (Hge : 2 <= len (members (name f) Examples.acls_conflict)).
    { apply Hiff. by exists f. }
    destruct (decide (name f = "incident.read")) as [|Hne]; [done|].
    exfalso. revert Hge. unfold members, Groups.with_key. simpl.
    rewrite !bool_decide_eq_false_2 by (intros E; apply Hne; rewrite <- E; reflexivity).
    by vm_compute. }
  exists r. split; [exact Hrun|].
  split; [|split].
  - rewrite Hcount. vm_compute in Hrun. by injection Hrun as <-.
  - vm_compute in Hrun. by injection Hrun as <-.
  - intros f Hf. destruct (Hcarry f Hf) as [Hc Ha].
    rewrite Hc, Ha, (Hname f Hf). split; reflexivity.
Defined.

(** The two end-to-end cases of the specification for the conflict scan. *)
Example acl_conflicts_same_name :
  run (Examples.client_returning Examples.acls_conflict) Examples.acl_params
    = Ok {| investigation := "acl_conflicts";
            error := None;
            result_table := Some "incident";
            finding_count := 1;
            findings :=
              [ {| category := "acl_conflict";
                   name := "incident.read";
                   count := 2;
                   AclConflicts.acls :=
                     [ {| sys_id := "acl1"; operation := "read";
                          condition := "active=true"; active := "true" |};
                       {| sys_id := "acl2"; operation := "read";
                          condition := "priority=1"; active := "true" |} ];
                   detail := "ACL 'incident.read' has 2 overlapping rules with different conditions" |} ];
            total_acls_checked := Some 2 |}.
Proof. vm_compute. reflexivity. Qed.

Example acl_conflicts_distinct_names :
  exists r,
    run (Examples.client_returning Examples.acls_distinct) Examples.acl_params = Ok r /\
    finding_count r = 0 /\ findings r = [].
Proof. vm_compute. eexists. repeat split; reflexivity. Qed.

Module ErrorFacts.
Import ErrorAnalysis.

Lemma finding_of_ok (src : string) (entries : list record) :
  entries <> [] -> exists f, finding_of (src, entries) = Ok f.
Proof. destruct entries; [done|]. intros _. by eexists. Qed.

(** What the finding of a cluster holds. *)
Lemma finding_of_inv (src : string) (entries : list record) (f : Finding) :
  finding_of (src, entries) = Ok f ->
  source f = src /\
  frequency f = len entries /\
  Str.min (List.map timestamp_of entries) = Some (first_seen f) /\
  Str.max (List.map timestamp_of entries) = Some (last_seen f) /\
  sample_messages f = List.map message_of (firstn 3 entries).
Proof.
  destruct entries as [|e0 entries]; [done|].
  unfold finding_of. intros [= <-]. by cbn.
Qed.

Lemma Forall2_elem_of_r {A B : Type} (P : A -> B -> Prop) (l : list A) (k : list B) (y : B) :
  Forall2 P l k -> y ∈ k -> exists x, x ∈ l /\ P x y.
Proof.
  induction 1 as [|a b l k Hab _ IH]; intros Hy; [by apply elem_of_nil in Hy|].
  apply elem_of_cons in Hy as [->|Hy].
  - exists a. split; [left | done].
  - destruct (IH Hy) as (x & Hx & HP). exists x. split; [by right | done].
Qed.

Lemma Forall2_elem_of_l {A B : Type} (P : A -> B -> Prop) (l : list A) (k : list B) (x : A) :
  Forall2 P l k -> x ∈ l -> exists y, y ∈ k /\ P x y.
Proof.
  induction 1 as [|a b l k Hab _ IH]; intros Hx; [by apply elem_of_nil in Hx|].
  apply elem_of_cons in Hx as [->|Hx].
  - exists b. split; [left | done].
  - destruct (IH Hx) as (y & Hy & HP). exists y. split; [by right | done].
Qed.

Lemma sources_of_findings (cs : list (string * list record)) (fs : list Finding) :
  Forall2 (fun c f => finding_of c = Ok f) cs fs ->
  List.map source fs = cs.*1.
Proof.
  induction 1 as [|[src entries] f cs fs Hf _ IH]; [done|].
  apply finding_of_inv in Hf as [Hsrc _]. simpl. by rewrite Hsrc, IH.
Qed.

End ErrorFacts.

Import ErrorAnalysis.

(** Claim C8.  When the query returns the log entries [logs], [run] returns
    one finding per source that occurs in [logs] (an entry without a source
    counts under ["unknown"]), no source twice; the findings are in
    descending order of frequency; the frequency of a finding is the number
    of entries of its source; [first_seen] is the [sys_created_on] field of
    one of these entries and is below that field of all of them, [last_seen]
    is one and is above all of them (the empty string stands for a field
    that an entry lacks); the sample messages are the [message] fields of
    the first three of them at most.  For the entries
    [[{source:A,ts:1},{source:A,ts:2},{source:B,ts:3}]] there are two
    findings, the first for source [A] with frequency 2, first seen at 1
    and last seen at 2, the second for source [B] with frequency 1, first
    and last seen at 3. *)
Theorem error_clusters
    (client : ServiceNowClient) (params : Params) (logs : list record) (total : Z)
    (Hquery : query_records client "syslog" (query params)
                ["sys_id"; "message"; "source"; "level"; "sys_created_on"]
                (default 100 (limit params)) (Some "sys_created_on")
              = Ok (logs, total)) :
  exists r,
    run client params = Ok r /\
    finding_count r = len (findings r) /\
    NoDup (List.map source (findings r)) /\
    (forall s, (exists f, f ∈ findings r /\ source f = s)
               <-> (exists log, log ∈ logs /\ source_of log = s)) /\
    StronglySorted (fun f g => frequency f >= frequency g) (findings r) /\
    (forall f, f ∈ findings r ->
       frequency f = len (cluster (source f) logs) /\
       (exists log, log ∈ cluster (source f) logs /\
                    first_seen f = get_default log "sys_created_on" "") /\
       (forall log, log ∈ cluster (source f) logs ->
          String.leb (first_seen f) (get_default log "sys_created_on" "") = true) /\
       (exists log, log ∈ cluster (source f) logs /\
                    last_seen f = get_default log "sys_created_on" "") /\
       (forall log, log ∈ cluster (source f) logs ->
          String.leb (get_default log "sys_created_on" "") (last_seen f) = true) /\
       sample_messages f =
         List.map (fun log => get_default log "message" "")
                  (firstn 3 (cluster (source f) logs)) /\
       (length (sample_messages f) <= 3)%nat) /\
    (logs = Examples.logs_AAB ->
       exists f1 f2,
         findings r = [f1; f2] /\
         source f1 = "A" /\ frequency f1 = 2 /\
         first_seen f1 = "1" /\ last_seen f1 = "2" /\
         sample_messages f1 = [EmptyString; EmptyString] /\
         source f2 = "B" /\ frequency f2 = 1 /\
         first_seen f2 = "3" /\ last_seen f2 = "3" /\
         sample_messages f2 = [EmptyString]).
Proof.
  set (clusters := Groups.group_by source_of logs).
  set (sorted := sorted_by (fun x : string * list record => - len x.2) clusters).
  assert (Hperm : sorted ≡ₚ clusters) by apply SortFacts.sorted_by_perm.
  assert (Hmem : forall k g, (k, g) ∈ sorted <-> g = cluster k logs /\ g <> []).
  { intros k g. rewrite Hperm. apply GroupFacts.elem_of_group_by. }
  destruct (SortFacts.traverse_Forall2 finding_of sorted) as (fs & Htrav & Hall).
  { apply Forall_forall. intros [k g] Hin. apply Hmem in Hin as [_ Hne].
    by apply ErrorFacts.finding_of_ok. }
  assert (Hrun : run client params =
                 Ok {| investigation := "error_analysis";
                       finding_count := len fs;
                       findings := fs;
                       params_hours := default 24 (hours params);
                       params_source := source_filter params;
                       params_limit := default 100 (limit params);
                       total_errors := len logs |}).
  { unfold run. rewrite Hquery. fold clusters. fold sorted. by rewrite Htrav. }
  assert (Hsrc : List.map source fs = sorted.*1)
    by by apply ErrorFacts.sources_of_findings.
  eexists. split; [exact Hrun|]. simpl.
  split; [done|]. split; [|split; [|split; [|split]]].
  - rewrite Hsrc, Hperm. apply GroupFacts.group_by_NoDup.
  - intros s. split.
    + intros (f & Hf & <-).
      destruct (ErrorFacts.Forall2_elem_of_r _ _ _ _ Hall Hf) as ([k g] & Hin & Hfo).
      apply ErrorFacts.finding_of_inv in Hfo as [-> _].
      apply Hmem in Hin as [-> Hne].
      by apply GroupFacts.with_key_nonempty in Hne.
    + intros Hlog.
      apply (GroupFacts.with_key_nonempty source_of) in Hlog.
      assert (Hin : (s, cluster s logs) ∈ sorted) by by apply Hmem.
      destruct (ErrorFacts.Forall2_elem_of_l _ _ _ _ Hall Hin) as (f & Hf & Hfo).
      apply ErrorFacts.finding_of_inv in Hfo as [Hs _]. by exists f.
  - apply (SortFacts.StronglySorted_Forall2
             (fun c f => finding_of c = Ok f)
             (fun a b : string * list record => - len a.2 <= - len b.2) _ sorted fs);
      [|done|apply SortFacts.sorted_by_sorted].
    intros [k g] [k' g'] f f' Hf Hf' Hle.
    apply ErrorFacts.finding_of_inv in Hf as (_ & -> & _).
    apply ErrorFacts.finding_of_inv in Hf' as (_ & -> & _).
    simpl in Hle. lia.
  - intros f Hf.
    destruct (ErrorFacts.Forall2_elem_of_r _ _ _ _ Hall Hf) as ([k g] & Hin & Hfo).
    apply ErrorFacts.finding_of_inv in Hfo as (Hs & Hfreq & Hmin & Hmax & Hmsg).
    rewrite Hs. clear Hs.
    apply Hmem in Hin as [-> _].
    apply SortFacts.min_spec in Hmin as [Hmin_in Hmin_le].
    apply SortFacts.max_spec in Hmax as [Hmax_in Hmax_le].
    apply list_elem_of_In, in_map_iff in Hmin_in as (lo & Hlo & Hlo_in).
    apply list_elem_of_In, in_map_iff in Hmax_in as (hi & Hhi & Hhi_in).
    assert (Hts : forall log, log ∈ cluster k logs ->
                    timestamp_of log ∈ List.map timestamp_of (cluster k logs)).
    { intros log Hlog. apply list_elem_of_In, in_map, list_elem_of_In, Hlog. }
    split; [done|]. split; [exists lo; by rewrite <- list_elem_of_In in Hlo_in|].
    split; [intros log Hlog; by apply Hmin_le, Hts|].
    split; [exists hi; by rewrite <- list_elem_of_In in Hhi_in|].
    split; [intros log Hlog; by apply Hmax_le, Hts|].
    split; [done|].
    rewrite Hmsg, length_map, length_firstn. lia.
  - intros ->. vm_compute in Htrav. injection Htrav as <-.
    do 2 eexists. repeat split; reflexivity.
Qed.

(** The entries of the specification, and five entries with messages of
    which four come from one source: the samples are the messages of the
    first three of the four, and the first and the last timestamp are not
    those of the first and the last entry. *)
Lemma error_clusters_witness :
  (exists r f1 f2,
      run (Examples.client_returning Examples.logs_AAB) Examples.error_params = Ok r /\
      findings r = [f1; f2] /\
      source f1 = "A" /\ frequency f1 = 2 /\
      first_seen f1 = "1" /\ last_seen f1 = "2" /\
      sample_messages f1 = [EmptyString; EmptyString] /\
      source f2 = "B" /\ frequency f2 = 1 /\
      first_seen f2 = "3" /\ last_seen f2 = "3" /\
      sample_messages f2 = [EmptyString]) /\
  (exists r,
      run (Examples.client_returning Examples.logs_messages) Examples.error_params
        = Ok r /\
      finding_count r = 2 /\
      List.map source (findings r) = ["db"; "web"] /\
      forall f, f ∈ findings r -> source f = "db" ->
        frequency f = 4 /\
        first_seen f = "2024-01-01" /\
        last_seen f = "2024-01-05" /\
        sample_messages f = ["timeout"; "deadlock"; "disk full"]).
Proof.
  split.
  - destruct (error_clusters (Examples.client_returning Examples.logs_AAB)
                Examples.error_params Examples.logs_AAB (len Examples.logs_AAB) eq_refl)
      as (r & Hrun & _ & _ & _ & _ & _ & Hex).
    destruct (Hex eq_refl) as (f1 & f2 & Hfs).
    exists r, f1, f2. split; [exact Hrun | exact Hfs].
  - destruct (error_clusters (Examples.client_returning Examples.logs_messages)
                Examples.error_params Examples.logs_messages
                (len Examples.logs_messages) eq_refl)
      as (r & Hrun & Hcount & _ & _ & _ & Hall & _).
    exists r. split; [exact Hrun|].
    assert (Hsrc : List.map source (findings r) = ["db"; "web"]).
    { vm_compute in Hrun. by injection Hrun as <-. }
    split; [|split; [exact Hsrc|]].
    + rewrite Hcount. unfold len. rewrite <- (length_map source), Hsrc. reflexivity.
    + intros f Hf Hdb.
      destruct (Hall f Hf)
        as (Hfreq & (lo & Hlo & Hfirst) & Hmin & (hi & Hhi & Hlast) & Hmax & Hmsg & _).
      rewrite Hdb in *.
      split; [rewrite Hfreq; reflexivity|].
      split; [|split; [|rewrite Hmsg; reflexivity]].
      * assert (He3 : String.leb (first_seen f) "2024-01-01" = true).
        { apply (Hmin (Examples.log_entry "e3" "db" "2024-01-01" "deadlock")).
          apply (bool_decide_unpack _). vm_compute. exact I. }
        revert Hlo He3. rewrite Hfirst. clear.
        change (cluster "db" Examples.logs_messages)
          with [ Examples.log_entry "e1" "db" "2024-01-02" "timeout";
                 Examples.log_entry "e3" "db" "2024-01-01" "deadlock";
                 Examples.log_entry "e4" "db" "2024-01-05" "disk full";
                 Examples.log_entry "e5" "db" "2024-01-04" "refused" ].
        rewrite !elem_of_cons, elem_of_nil.
        intros [->|[->|[->|[->|[]]]]]; vm_compute; (reflexivity || discriminate).
      * assert (He4 : String.leb "2024-01-05" (last_seen f) = true).
        { apply (Hmax (Examples.log_entry "e4" "db" "2024-01-05" "disk full")).
          apply (bool_decide_unpack _). vm_compute. exact I. }
        revert Hhi He4. rewrite Hlast. clear.
        change (cluster "db" Examples.logs_messages)
          with [ Examples.log_entry "e1" "db" "2024-01-02" "timeout";
                 Examples.log_entry "e3" "db" "2024-01-01" "deadlock";
                 Examples.log_entry "e4" "db" "2024-01-05" "disk full";
                 Examples.log_entry "e5" "db" "2024-01-04" "refused" ].
        rewrite !elem_of_cons, elem_of_nil.
        intros [->|[->|[->|[->|[]]]]]; vm_compute; (reflexivity || discriminate).
Defined.

(** * Further properties of the workflow state *)

Module StateMoreFacts.
Import State.

Section PreviewTokenStore.
Context {Payload : Type}.
Implicit Types (st : PreviewTokenStore Payload) (e : Entry Payload).

(** A [get] within the TTL changes nothing. *)
Lemma get_active st now tok e :
  _store st !! tok = Some e ->
  within_ttl (_ttl st) now (created_at e) ->
  get st now tok = (st, Some (payload e)).
Proof.
  intros He Hage. unfold get. rewrite He.
  by rewrite (StateFacts.is_expired_within st now e Hage).
Qed.

Lemma consume_active st now tok e :
  _store st !! tok = Some e ->
  within_ttl (_ttl st) now (created_at e) ->
  (consume st now tok).2 = Some (payload e).
Proof.
  intros He Hage. unfold consume. rewrite He.
  by rewrite (StateFacts.is_expired_within st now e Hage).
Qed.

Lemma step_other st now c tok :
  TokenCalls.other_token tok c ->
  _store (step st now c).1 !! tok = _store st !! tok /\
  _ttl (step st now c).1 = _ttl st.
Proof.
  intros [Hr Hc]. destruct c as [t p|t|t]; simpl in *.
  - apply String.eqb_neq in Hc. by rewrite lookup_insert_ne.
  - apply String.eqb_neq in Hr. unfold get.
    destruct (_store st !! t) as [e|]; [|done].
    destruct (_is_expired st now e); [|done]. simpl. by rewrite lookup_delete_ne.
  - apply String.eqb_neq in Hr. unfold consume.
    destruct (_store st !! t) as [e|]; [|done].
    destruct (_is_expired st now e); simpl; by rewrite lookup_delete_ne.
Qed.

(** A read that returned [None] leaves the token out of the store. *)
Lemma read_none_absent st now c tok :
  reads tok c = true -> (step st now c).2 = None ->
  _store (step st now c).1 !! tok = None.
Proof.
  destruct c as [t p|t|t]; simpl; [done| |]; intros ->%String.eqb_eq.
  - unfold get. destruct (_store st !! tok) as [e|] eqn:E; [|done].
    destruct (_is_expired st now e); [|done]. intros _. apply lookup_delete_eq.
  - unfold consume. destruct (_store st !! tok) as [e|] eqn:E; [|done].
    destruct (_is_expired st now e); [|done]. intros _. apply lookup_delete_eq.
Qed.

End PreviewTokenStore.
End StateMoreFacts.

(** X1.  [get] is a peek.  For a token in the store, any number of [get]
    calls at ages within the TTL leave the store as it is and each return
    the payload, and a [consume] within the TTL after them still returns
    the payload.  The age is the one the store computes, the float
    [now - created_at]. *)
Theorem get_is_peek {Payload : Type}
    (st : PreviewTokenStore Payload) (tok : string) (e : Entry Payload)
    (times : list float) (now : float)
    (Hentry : _store st !! tok = Some e)
    (Htimes : Forall (fun t => within_ttl (_ttl st) t (created_at e)) times)
    (Hnow : within_ttl (_ttl st) now (created_at e)) :
  (run_calls st (TokenCalls.gets tok times)).1 = st /\
  Forall (fun cr => cr.2 = Some (payload e))
         (run_calls st (TokenCalls.gets tok times)).2 /\
  length (run_calls st (TokenCalls.gets tok times)).2 = length times /\
  (consume (run_calls st (TokenCalls.gets tok times)).1 now tok).2 = Some (payload e).
Proof.
  assert (Hrun : (run_calls st (TokenCalls.gets tok times)).1 = st /\
                 Forall (fun cr => cr.2 = Some (payload e))
                        (run_calls st (TokenCalls.gets tok times)).2 /\
                 length (run_calls st (TokenCalls.gets tok times)).2 = length times).
  { induction Htimes as [|t times Ht _ IH]; [by repeat split|].
    unfold TokenCalls.gets in *. cbn [List.map run_calls step].
    rewrite (StateMoreFacts.get_active st t tok e Hentry Ht).
    destruct (run_calls st (List.map (fun t0 => (t0, CallGet tok)) times))
      as [st2 rs]. simpl in *. destruct IH as (-> & Hrs & Hlen).
    split; [done|]. split; [by constructor | by rewrite Hlen]. }
  destruct Hrun as (Hst & Hrs & Hlen). rewrite Hst.
  split; [done|]. split; [done|]. split; [done|].
  by apply StateMoreFacts.consume_active.
Qed.

Lemma get_is_peek_witness :
  (run_calls Examples.token_store_1
     (TokenCalls.gets "tok-1" [11%float; 200.25%float; 310%float])).1
    = Examples.token_store_1 /\
  Forall (fun cr => cr.2 = Some "change-set")
         (run_calls Examples.token_store_1
            (TokenCalls.gets "tok-1" [11%float; 200.25%float; 310%float])).2 /\
  length (run_calls Examples.token_store_1
            (TokenCalls.gets "tok-1" [11%float; 200.25%float; 310%float])).2
    = 3%nat /\
  (consume (run_calls Examples.token_store_1
              (TokenCalls.gets "tok-1" [11%float; 200.25%float; 310%float])).1
     310%float "tok-1").2
    = Some "change-set".
Proof.
  apply (get_is_peek Examples.token_store_1 "tok-1"
           {| payload := "change-set"; created_at := 10%float |}
           [11%float; 200.25%float; 310%float] 310%float).
  - reflexivity.
  - repeat constructor; (eexists; split; [reflexivity | vm_compute; discriminate]).
  - eexists; split; [reflexivity | vm_compute; discriminate].
Defined.

(** X2.  Calls on other tokens never touch a token.  Through any sequence
    of [create], [get] and [consume] calls that do not name [tok], the
    entry of [tok] and the TTL of the store stay as they are: a token that
    nobody reads is kept, expired or not, since expiry is only tested on
    the token that a call reads. *)
Theorem token_isolation {Payload : Type}
    (st : PreviewTokenStore Payload) (tok : string)
    (calls : list (float * call Payload))
    (Hother : Forall (fun nc => TokenCalls.other_token tok nc.2) calls) :
  _store (run_calls st calls).1 !! tok = _store st !! tok /\
  _ttl (run_calls st calls).1 = _ttl st.
Proof.
  revert st. induction Hother as [|[now c] calls Hc _ IH]; intros st; [done|].
  cbn [run_calls]. destruct (step st now c) as [st1 r] eqn:Hstep.
  destruct (StateMoreFacts.step_other st now c tok Hc) as [H1 H2].
  rewrite Hstep in H1, H2. simpl in H1, H2.
  specialize (IH st1). destruct (run_calls st1 calls) as [st2 rs]. simpl in *.
  destruct IH as [IH1 IH2]. split; congruence.
Qed.

Lemma token_isolation_witness :
  _store (run_calls Examples.token_store_1
            [ (5000%float, CallCreate "tok-2" "other");
              (9000%float, CallGet "tok-2");
              (9001%float, CallConsume "tok-3") ]).1 !! "tok-1"
  = _store Examples.token_store_1 !! "tok-1" /\
  _ttl (run_calls Examples.token_store_1
          [ (5000%float, CallCreate "tok-2" "other");
            (9000%float, CallGet "tok-2");
            (9001%float, CallConsume "tok-3") ]).1
  = _ttl Examples.token_store_1.
Proof.
  apply (token_isolation Examples.token_store_1 "tok-1").
  repeat constructor.
Defined.

(** X3.  A [None] answer is final.  Once a [get] or a [consume] of a token
    has returned [None] (the token was unknown, consumed or expired), every
    later [get] and [consume] of the token returns [None], in any sequence
    of calls that does not create the token again, at whatever clock
    readings. *)
Theorem none_is_final {Payload : Type}
    (st : PreviewTokenStore Payload) (tok : string) (now : float) (c : call Payload)
    (calls : list (float * call Payload))
    (Hread : reads tok c = true)
    (Hnone : (step st now c).2 = None)
    (Hcalls : Forall (fun nc => creates tok nc.2 = false) calls) :
  Forall (fun cr => reads tok cr.1 = true -> cr.2 = None)
         (run_calls (step st now c).1 calls).2.
Proof.
  apply StateFacts.absent_stays_absent; [|done].
  by apply StateMoreFacts.read_none_absent.
Qed.

Lemma none_is_final_witness :
  Forall (fun cr => reads "tok-1" cr.1 = true -> cr.2 = None)
         (run_calls (step Examples.token_store_1 311 (CallGet "tok-1")).1
            [ (0%float, CallGet "tok-1"); (12%float, CallConsume "tok-1") ]).2.
Proof.
  apply (none_is_final Examples.token_store_1 "tok-1" 311 (CallGet "tok-1")).
  - reflexivity.
  - reflexivity.
  - repeat constructor.
Defined.

Module TrackerFacts.
Import State TrackerCalls.

Lemma since_last_remove_snoc (tag : string) (calls : list call) (c : call) :
  since_last_remove tag (calls ++ [c]) =
    if removes tag c then [] else since_last_remove tag calls ++ [c].
Proof. unfold since_last_remove. by rewrite fold_left_app. Qed.

Lemma tracked_under_snoc (tag : string) (calls : list call) (c : call) :
  tracked_under tag (calls ++ [c]) = tracked_under tag calls ++ tracked_under tag [c].
Proof. unfold tracked_under. by rewrite flat_map_app. Qed.

Lemma run_snoc (calls : list call) (c : call) (self : gmap string (list SeedEntry)) :
  run (calls ++ [c]) self = step (run calls self) c.
Proof. unfold run. by rewrite fold_left_app. Qed.

End TrackerFacts.

(** X4.  What the tracker holds after any sequence of [track] and [remove]
    calls on an empty tracker: [get] of a tag returns the entries tracked
    under the tag since its last [remove], in the order of the calls, and
    [None] when there is none; calls on other tags have no effect on it. *)
Theorem tracker_history (calls : list TrackerCalls.call) (tag : string) :
  SeededRecordTracker.get (TrackerCalls.run calls SeededRecordTracker.init) tag =
    match TrackerCalls.tracked_under tag (TrackerCalls.since_last_remove tag calls) with
    | [] => None
    | entries => Some entries
    end.
Proof.
  rewrite StateFacts.get_lookup.
  induction calls as [|c calls IH] using rev_ind; [done|].
  rewrite TrackerFacts.run_snoc, TrackerFacts.since_last_remove_snoc.
  destruct c as [t tbl ids|t]; simpl.
  - rewrite TrackerFacts.tracked_under_snoc. simpl.
    destruct (String.eqb_spec t tag) as [->|Hne].
    + rewrite StateFacts.track_lookup, IH.
      destruct (TrackerCalls.tracked_under tag
                  (TrackerCalls.since_last_remove tag calls)) as [|e0 es]; done.
    + rewrite StateFacts.track_lookup_ne, IH by done. by rewrite app_nil_r.
  - destruct (String.eqb_spec t tag) as [->|Hne].
    + unfold SeededRecordTracker.remove. by rewrite lookup_delete_eq.
    + unfold SeededRecordTracker.remove. rewrite lookup_delete_ne by done.
      rewrite TrackerFacts.tracked_under_snoc. simpl. by rewrite app_nil_r.
Qed.

(** * Further properties of the policy engine *)

Module PolicyMoreFacts.
Import Config Policy Masking.

Lemma str_app_assoc (a b c : string) : (a +:+ b) +:+ c = a +:+ b +:+ c.
Proof.
  induction a as [|x a IH]; [done|].
  rewrite !StrFacts.app_cons. by rewrite IH.
Qed.

Lemma lower_app (a b : string) : Str.lower (a +:+ b) = Str.lower a +:+ Str.lower b.
Proof.
  induction a as [|x a IH]; [done|].
  rewrite StrFacts.app_cons. cbn [Str.lower]. rewrite StrFacts.app_cons.
  by rewrite IH.
Qed.

(** The new dict of [mask_sensitive_fields] holds [mask_items] of the
    record's items; the rest of the heap is as before. *)
Lemma mask_sensitive_fields_items (h : heap) (record : loc) (items : gmap string value) :
  h !! record = Some items ->
  exists h' masked,
    mask_sensitive_fields h record = Some (h', masked) /\
    h !! masked = None /\
    h' !! masked = Some (mask_items items) /\
    (forall l, l <> masked -> h' !! l = h !! l).
Proof.
  intros Hrecord. unfold mask_sensitive_fields. rewrite Hrecord.
  set (masked := fresh (dom h)).
  assert (Hfresh : h !! masked = None) by apply not_elem_of_dom, is_fresh.
  destruct (PolicyFacts.mask_loop_masked masked (map_to_list items).*1
              (<[masked := items]> h) items) as (items' & Hm & Hlook).
  { apply lookup_insert_eq. }
  do 2 eexists. split; [done|]. split; [done|]. split.
  - rewrite Hm. f_equal. apply map_eq. intros k.
    unfold mask_items. rewrite Hlook, map_lookup_imap.
    destruct (items !! k) as [v|] eqn:Hv; simpl.
    + case_decide as Hd.
      * destruct Hd as [_ ->]. done.
      * destruct (_is_sensitive_field k) eqn:Hs; [|done].
        exfalso. apply Hd. split; [|done].
        apply list_elem_of_fmap. exists (k, v). split; [done|].
        by apply elem_of_map_to_list.
    + rewrite decide_False; [done|]. intros [Hin _].
      apply list_elem_of_fmap in Hin as ([k' v] & -> & Hin).
      apply elem_of_map_to_list in Hin. simpl in Hv. congruence.
  - intros l Hl. rewrite PolicyFacts.mask_loop_frame by done.
    by rewrite lookup_insert_ne.
Qed.

Lemma can_write_dev_incident : can_write "incident" default_settings false = true.
Proof.
  unfold can_write. rewrite decide_False by exact PolicyFacts.incident_allowed. done.
Qed.

Lemma lookup_mask_items (items : gmap string value) (k : string) :
  mask_items items !! k =
    (fun v => if _is_sensitive_field k then MASK_VALUE else v) <$> items !! k.
Proof. unfold mask_items. rewrite map_lookup_imap. by destruct (items !! k). Qed.

Lemma mask_items_idemp (items : gmap string value) :
  mask_items (mask_items items) = mask_items items.
Proof.
  apply map_eq. intros k. rewrite !lookup_mask_items.
  destruct (items !! k) as [v|]; simpl; [|done].
  by destruct (_is_sensitive_field k).
Qed.

End PolicyMoreFacts.

(** X5.  Sensitivity is a substring test that ignores case: a field name
    that contains a sensitive field name, with any text before and after
    it, is sensitive too; and two field names that are equal up to the case
    of their letters are both sensitive or both not. *)
Theorem sensitive_field_substring (field_name : string)
    (Hsensitive : _is_sensitive_field field_name = true) :
  (forall a b : string, _is_sensitive_field (a +:+ field_name +:+ b) = true) /\
  (forall other : string,
      Str.lower other = Str.lower field_name -> _is_sensitive_field other = true).
Proof.
  apply StrFacts.is_sensitive_field_spec in Hsensitive
    as (p & x & y & Hp & Hlow).
  split.
  - intros a b. apply StrFacts.is_sensitive_field_spec.
    exists p, (Str.lower a +:+ x), (y +:+ Str.lower b). split; [done|].
    rewrite !PolicyMoreFacts.lower_app, Hlow.
    by rewrite !PolicyMoreFacts.str_app_assoc.
  - intros other Hother. apply StrFacts.is_sensitive_field_spec.
    exists p, x, y. split; [done|]. by rewrite Hother.
Qed.

(** [PassWord] is sensitive, and so are a name that holds it and a name
    that differs from it in the case of its letters. *)
Lemma sensitive_field_substring_witness :
  _is_sensitive_field "PassWord" = true /\
  _is_sensitive_field "X_PassWord_1" = true /\
  _is_sensitive_field "pAsSwOrD" = true /\
  (forall a b : string, _is_sensitive_field (a +:+ "PassWord" +:+ b) = true).
Proof.
  pose proof (sensitive_field_substring "PassWord" eq_refl) as [Hsub Hcase].
  split; [reflexivity|].
  split; [exact (Hsub "X_" "_1")|].
  split; [exact (Hcase "pAsSwOrD" eq_refl) | exact Hsub].
Defined.

(** X6.  Masking is idempotent: masking the copy that
    [mask_sensitive_fields] returned gives a second new dict with the same
    items as the first, and leaves the first copy and the record as they
    are. *)
Theorem mask_sensitive_fields_idempotent
    (h : heap) (record : loc) (items : gmap string value)
    (Hrecord : h !! record = Some items) :
  exists h1 masked1 h2 masked2,
    mask_sensitive_fields h record = Some (h1, masked1) /\
    mask_sensitive_fields h1 masked1 = Some (h2, masked2) /\
    masked2 <> masked1 /\ masked2 <> record /\
    h2 !! masked2 = h1 !! masked1 /\
    h2 !! masked1 = h1 !! masked1 /\
    h2 !! record = Some items.
Proof.
  destruct (PolicyMoreFacts.mask_sensitive_fields_items h record items Hrecord)
    as (h1 & m1 & Hmask1 & Hfresh1 & Hm1 & Hframe1).
  destruct (PolicyMoreFacts.mask_sensitive_fields_items h1 m1 _ Hm1)
    as (h2 & m2 & Hmask2 & Hfresh2 & Hm2 & Hframe2).
  assert (Hne1 : m1 <> record) by congruence.
  assert (Hne21 : m2 <> m1) by congruence.
  assert (Hne2 : m2 <> record).
  { intros ->. rewrite Hframe1 in Hfresh2 by done. congruence. }
  exists h1, m1, h2, m2. split; [done|]. split; [done|].
  split; [done|]. split; [done|]. split; [|split].
  - by rewrite Hm2, Hm1, PolicyMoreFacts.mask_items_idemp.
  - apply Hframe2. congruence.
  - rewrite Hframe2, Hframe1 by done. done.
Qed.

Lemma mask_sensitive_fields_idempotent_witness :
  exists h1 masked1 h2 masked2,
    mask_sensitive_fields Examples.record_heap 5%positive = Some (h1, masked1) /\
    mask_sensitive_fields h1 masked1 = Some (h2, masked2) /\
    masked2 <> masked1 /\ masked2 <> 5%positive /\
    h2 !! masked2 = h1 !! masked1 /\
    h2 !! masked1 = h1 !! masked1 /\
    h2 !! 5%positive = Some {[ "name" := VStr "x"; "Api_Key" := VInt 3 ]}.
Proof.
  apply (mask_sensitive_fields_idempotent Examples.record_heap 5%positive).
  reflexivity.
Defined.

(** X7.  The write gate is no wider than the read gate: a table that
    [can_write] allows, under any settings and override, passes
    [check_table_access], and [enforce_query_safety] never answers with a
    [PolicyError] for it. *)
Theorem writable_is_readable
    (t : string) (s : Settings) (override : bool)
    (Hwrite : can_write t s override = true) :
  check_table_access t = Ok tt /\
  (forall (q : string) (l : option Z) (msg : string),
      enforce_query_safety t q l s <> Raise (PolicyError msg)).
Proof.
  assert (Hallowed : t ∉ DENIED_TABLES).
  { unfold can_write in Hwrite. by destruct (decide (t ∈ DENIED_TABLES)). }
  split; [by apply PolicyFacts.check_table_access_allowed|].
  intros q l msg. rewrite (PolicyFacts.enforce_query_safety_allowed t q l s Hallowed).
  by destruct (in_list t (large_table_names s) && negb (_has_date_filter q)).
Qed.

Lemma writable_is_readable_witness :
  check_table_access "incident" = Ok tt /\
  (forall (q : string) (l : option Z) (msg : string),
      enforce_query_safety "incident" q l default_settings <> Raise (PolicyError msg)).
Proof.
  apply (writable_is_readable "incident" default_settings false).
  exact PolicyMoreFacts.can_write_dev_incident.
Defined.

(** X8.  The limit plays no part in the decision of
    [enforce_query_safety]: the call raises the same exception with any
    other limit, given or not; and a limit that it returns is never above
    [max_row_limit]. *)
Theorem query_safety_limit_independent
    (t q : string) (s : Settings) (l l' : option Z) :
  (forall eff, enforce_query_safety t q l s = Ok eff -> eff <= max_row_limit s) /\
  (forall e, enforce_query_safety t q l s = Raise e <->
             enforce_query_safety t q l' s = Raise e).
Proof.
  unfold enforce_query_safety, check_table_access.
  destruct (decide (t ∈ DENIED_TABLES)); [by split|].
  destruct (in_list t (large_table_names s) && negb (_has_date_filter q));
    [by split|].
  split; [|by split].
  intros eff [= <-]. destruct l as [r|]; [|lia].
  destruct (Z.gtb_spec r (max_row_limit s)); lia.
Qed.

(** * Properties of the configuration *)

Module ConfigFacts.
Import Str PyStr.

Lemma chars_cons (c : ascii) (s : string) : chars (String c s) = c :: chars s.
Proof. reflexivity. Qed.

Lemma chars_app (a b : string) : chars (a +:+ b) = chars a ++ chars b.
Proof.
  induction a as [|x a IH]; [done|].
  rewrite StrFacts.app_cons, !chars_cons, IH. done.
Qed.

(** A one-character needle occurs in [h] when it is one of its characters. *)
Lemma contains_char (c : ascii) (h : string) :
  contains (String c "") h = true <-> c ∈ chars h.
Proof.
  induction h as [|x h IH]; cbn [contains String.prefix].
  - split; [done|]. intros H. by apply elem_of_nil in H.
  - rewrite chars_cons, elem_of_cons, orb_true_iff, IH.
    destruct (ascii_dec c x) as [->|Hne].
    + split; [by left|]. intros _. left. by destruct h.
    + split; [intros [|]; [done | by right] | intros [|]; [done | by right]].
Qed.

Lemma lstrip_chars (s : string) (c : ascii) : c ∈ chars (lstrip s) -> c ∈ chars s.
Proof.
  induction s as [|x s IH]; [done|]. cbn [lstrip].
  destruct (is_space x); [|done]. rewrite chars_cons. intros H. right. by apply IH.
Qed.

Lemma rstrip_chars (s : string) (c : ascii) : c ∈ chars (rstrip s) -> c ∈ chars s.
Proof.
  induction s as [|x s IH]; [done|]. cbn [rstrip].
  destruct (rstrip s) as [|y r] eqn:E.
  - destruct (is_space x).
    + intros H. by apply elem_of_nil in H.
    + rewrite !chars_cons. intros [->|H]%elem_of_cons; [left|].
      by apply elem_of_nil in H.
  - rewrite !(chars_cons x). intros [->|H]%elem_of_cons; [left|right].
    by apply IH.
Qed.

Lemma strip_chars (s : string) (c : ascii) : c ∈ chars (strip s) -> c ∈ chars s.
Proof. intros H. by apply lstrip_chars, rstrip_chars. Qed.

(** No piece of a split holds the separator. *)
Lemma split_no_sep (sep : ascii) (s : string) :
  Forall (fun w => sep ∉ chars w) (split sep s).
Proof.
  induction s as [|c s IH]; cbn [split].
  - repeat constructor. apply not_elem_of_nil.
  - destruct (Ascii.eqb_spec c sep) as [->|Hne].
    + constructor; [apply not_elem_of_nil | done].
    + destruct (split sep s) as [|w ws].
      * repeat constructor. rewrite chars_cons.
        intros [->|H]%elem_of_cons; [done | by apply elem_of_nil in H].
      * apply Forall_cons in IH as [Hw Hws]. constructor; [|done].
        rewrite chars_cons. intros [->|H]%elem_of_cons; done.
Qed.

Lemma rstrip_idemp (s : string) : rstrip (rstrip s) = rstrip s.
Proof.
  induction s as [|x s IH]; [done|]. cbn [rstrip].
  destruct (rstrip s) as [|y r] eqn:E.
  - destruct (is_space x) eqn:Hx; [done|]. cbn [rstrip]. by rewrite Hx.
  - cbn [rstrip]. cbn [rstrip] in IH. by rewrite IH.
Qed.

(** A string that does not begin with white space keeps its first character
    through [rstrip], and [lstrip] leaves the result as it is. *)
Lemma lstrip_rstrip_lstrip (s : string) : lstrip (rstrip (lstrip s)) = rstrip (lstrip s).
Proof.
  induction s as [|x s IH]; [done|]. cbn [lstrip].
  destruct (is_space x) eqn:Hx; [done|].
  cbn [rstrip]. destruct (rstrip s) as [|y r].
  - rewrite Hx. cbn [lstrip]. by rewrite Hx.
  - cbn [lstrip]. by rewrite Hx.
Qed.

Lemma strip_idemp (s : string) : strip (strip s) = strip s.
Proof. unfold strip. by rewrite lstrip_rstrip_lstrip, rstrip_idemp. Qed.

Lemma truthy_nonempty (s : string) : truthy s = true <-> s <> "".
Proof. by destruct s. Qed.

(** The code points that [is_space] accepts. *)
Lemma is_space_code_points (c : ascii) :
  is_space c = false ->
  N_of_ascii c ∉ [9; 10; 11; 12; 13; 28; 29; 30; 31; 32; 133; 160]%N.
Proof.
  intros Hc Hin. revert Hc.
  repeat (apply elem_of_cons in Hin as [Hin|Hin];
          [apply (f_equal ascii_of_N) in Hin; rewrite ascii_N_embedding in Hin;
           by rewrite Hin|]).
  by apply elem_of_nil in Hin.
Qed.

(** What [lstrip] returns does not begin with white space. *)
Lemma lstrip_first (s : string) (c : ascii) (rest : string) :
  lstrip s = String c rest -> is_space c = false.
Proof.
  induction s as [|x s IH]; [done|]. cbn [lstrip].
  destruct (is_space x) eqn:Hx; [done|]. by intros [= <- _].
Qed.

(** What [rstrip] returns does not end with white space. *)
Lemma rstrip_last (s pre : string) (c : ascii) :
  rstrip s = pre +:+ String c "" -> is_space c = false.
Proof.
  revert pre. induction s as [|x s IH]; intros pre.
  - cbn [rstrip]. destruct pre; [rewrite StrFacts.app_nil | rewrite StrFacts.app_cons]; done.
  - cbn [rstrip]. destruct (rstrip s) as [|y r].
    + destruct (is_space x) eqn:Hx.
      * destruct pre; [rewrite StrFacts.app_nil | rewrite StrFacts.app_cons]; done.
      * destruct pre as [|p pre].
        -- rewrite StrFacts.app_nil. by intros [= <-].
        -- rewrite StrFacts.app_cons. intros [= _ H].
           destruct pre; [rewrite StrFacts.app_nil in H | rewrite StrFacts.app_cons in H];
             done.
    + destruct pre as [|p pre].
      * rewrite StrFacts.app_nil. done.
      * rewrite StrFacts.app_cons. intros [= _ H]. by apply (IH pre).
Qed.

End ConfigFacts.

(** X9.  Every name of [large_table_names] is clean: it is not empty, its
    first and its last character are no white space (none of the code
    points 9 to 13, 28 to 32, 133 and 160), so that [strip] leaves it as it
    is, and it holds no comma, whatever the configured text. *)
Theorem large_table_names_clean (s : Settings) (name : string)
    (Hname : name ∈ large_table_names s) :
  name <> "" /\ Str.strip name = name /\ Str.contains "," name = false /\
  (forall c rest, name = String c rest ->
     N_of_ascii c ∉ [9; 10; 11; 12; 13; 28; 29; 30; 31; 32; 133; 160]%N) /\
  (forall pre c, name = pre +:+ String c "" ->
     N_of_ascii c ∉ [9; 10; 11; 12; 13; 28; 29; 30; 31; 32; 133; 160]%N).
Proof.
  unfold large_table_names in Hname.
  apply list_elem_of_In, in_map_iff in Hname as (w & <- & Hw).
  apply List.filter_In in Hw as [Hw Htruthy].
  split; [by apply ConfigFacts.truthy_nonempty|].
  split; [apply ConfigFacts.strip_idemp|].
  split; [|split].
  - apply not_true_iff_false. intros Hc.
    apply ConfigFacts.contains_char, ConfigFacts.strip_chars in Hc.
    pose proof (ConfigFacts.split_no_sep "," (large_table_names_csv s)) as Hsplit.
    rewrite Forall_forall in Hsplit. apply (Hsplit w); [|done].
    by apply list_elem_of_In.
  - intros c rest Hfirst. apply ConfigFacts.is_space_code_points.
    apply (ConfigFacts.lstrip_first (Str.strip w) c rest).
    unfold Str.strip at 1. unfold Str.strip in Hfirst.
    by rewrite ConfigFacts.lstrip_rstrip_lstrip.
  - intros pre c Hlast. apply ConfigFacts.is_space_code_points.
    by apply (ConfigFacts.rstrip_last (Str.lstrip w) pre c).
Qed.

(** A configured text with a tab, spaces, no-break spaces and a line feed
    around its names, and one entry of white space only: the names are
    [syslog] and [sys_audit]. *)
Lemma large_table_names_clean_witness :
  large_table_names Examples.spaced_settings = ["syslog"; "sys_audit"] /\
  Str.strip "sys_audit" = "sys_audit" /\
  Str.contains "," "sys_audit" = false /\
  (forall c rest, "sys_audit" = String c rest ->
     N_of_ascii c ∉ [9; 10; 11; 12; 13; 28; 29; 30; 31; 32; 133; 160]%N).
Proof.
  pose proof (large_table_names_clean Examples.spaced_settings "sys_audit")
    as Hclean.
  assert (Hnames : large_table_names Examples.spaced_settings
                   = ["syslog"; "sys_audit"]) by (vm_compute; reflexivity).
  rewrite Hnames in Hclean.
  destruct Hclean as (_ & Hstrip & Hcomma & Hfirst & _).
  { right. left. }
  split; [exact Hnames|]. split; [exact Hstrip|]. split; [exact Hcomma | exact Hfirst].
Defined.

Module JoinFacts.
Import Str PyStr.

Lemma split_none (sep : ascii) (x : string) :
  sep ∉ chars x -> split sep x = [x].
Proof.
  induction x as [|c x IH]; [done|]. rewrite ConfigFacts.chars_cons, not_elem_of_cons.
  intros [Hne Hx]. cbn [split].
  destruct (Ascii.eqb_spec c sep) as [->|_]; [done|]. by rewrite IH.
Qed.

Lemma split_app_sep (sep : ascii) (x rest : string) :
  sep ∉ chars x ->
  split sep (x +:+ String sep rest) = x :: split sep rest.
Proof.
  induction x as [|c x IH].
  - intros _. rewrite StrFacts.app_nil. cbn [split]. by rewrite Ascii.eqb_refl.
  - rewrite ConfigFacts.chars_cons, not_elem_of_cons. intros [Hne Hx].
    rewrite StrFacts.app_cons. cbn [split].
    destruct (Ascii.eqb_spec c sep) as [->|_]; [done|]. by rewrite IH.
Qed.

(** Splitting a join gives the list back when no element holds the
    separator. *)
Lemma split_join (sep : ascii) (l : list string) :
  l <> [] -> Forall (fun w => sep ∉ chars w) l ->
  split sep (join (String sep "") l) = l.
Proof.
  intros Hne Hl. induction Hl as [|x l Hx Hl IH]; [done|].
  destruct l as [|y l].
  - by apply split_none.
  - unfold join in *.
    change (String.concat (String sep "") (x :: y :: l))
      with (x +:+ String sep (String.concat (String sep "") (y :: l))).
    rewrite split_app_sep by done. by rewrite IH.
Qed.

Lemma join_app (sep : string) (l k : list string) :
  l <> [] -> k <> [] ->
  join sep (l ++ k) = join sep l +:+ sep +:+ join sep k.
Proof.
  intros Hl Hk. induction l as [|x l IH]; [done|].
  destruct l as [|y l].
  - destruct k; [done|]. reflexivity.
  - change (join sep ((x :: y :: l) ++ k))
      with (x +:+ sep +:+ join sep ((y :: l) ++ k)).
    rewrite IH by done.
    change (join sep (x :: y :: l)) with (x +:+ sep +:+ join sep (y :: l)).
    by rewrite !PolicyMoreFacts.str_app_assoc.
Qed.

Lemma strip_clean_names (l : list string) :
  Forall clean_name l ->
  List.map strip (List.filter (fun t => truthy (strip t)) l) = l.
Proof.
  induction 1 as [|x l (Hne & Hstrip & _) _ IH]; [done|].
  cbn [List.filter]. rewrite Hstrip.
  apply ConfigFacts.truthy_nonempty in Hne. rewrite Hne.
  cbn [List.map]. by rewrite Hstrip, IH.
Qed.

Lemma rstrip_char_decomp (c : ascii) (s : string) :
  exists n, s = rstrip_char c s +:+ replicate_char c n.
Proof.
  induction s as [|x s [n IH]]; [by exists 0%nat|]. cbn [rstrip_char].
  destruct (rstrip_char c s) as [|y r].
  - rewrite StrFacts.app_nil in IH. destruct (Ascii.eqb_spec x c) as [->|Hne].
    + exists (S n). by rewrite IH.
    + exists n. by rewrite IH.
  - exists n. by rewrite StrFacts.app_cons, <- IH.
Qed.

Lemma app_singleton_nonempty (p : string) (c : ascii) : p +:+ String c "" <> "".
Proof. by destruct p. Qed.

Lemma rstrip_char_no_trailing (c : ascii) (s p : string) :
  rstrip_char c s <> p +:+ String c "".
Proof.
  revert p. induction s as [|x s IH]; intros p; cbn [rstrip_char].
  - intros H. by apply (app_singleton_nonempty p c).
  - destruct (rstrip_char c s) as [|y r] eqn:E.
    + destruct (Ascii.eqb_spec x c) as [->|Hne].
      * intros H. by apply (app_singleton_nonempty p c).
      * destruct p as [|z p]; [by intros [= ->]|].
        rewrite StrFacts.app_cons. intros [= _ H].
        by apply (app_singleton_nonempty p c).
    + destruct p as [|z p]; [done|].
      rewrite StrFacts.app_cons. intros [= _ H]. by apply (IH p).
Qed.

Lemma rstrip_char_replicate (c : ascii) (n : nat) :
  rstrip_char c (replicate_char c n) = "".
Proof.
  induction n as [|n IH]; [done|]. cbn [replicate_char rstrip_char].
  by rewrite IH, Ascii.eqb_refl.
Qed.

Lemma rstrip_char_app_replicate (c : ascii) (s : string) (n : nat) :
  rstrip_char c (s +:+ replicate_char c n) = rstrip_char c s.
Proof.
  induction s as [|x s IH].
  - rewrite StrFacts.app_nil. apply rstrip_char_replicate.
  - rewrite StrFacts.app_cons. cbn [rstrip_char]. by rewrite IH.
Qed.

End JoinFacts.

(** X10.  The configured text is read back: when [large_table_names_csv]
    is the join with [","] of names that are clean (not empty, no white
    space at either end, no comma), [large_table_names] is the list of these
    names, in their order; the empty list for the empty text. *)
Theorem large_table_names_roundtrip (s : Settings) (names : list string)
    (Hcsv : large_table_names_csv s = PyStr.join "," names)
    (Hclean : Forall clean_name names) :
  large_table_names s = names.
Proof.
  unfold large_table_names. rewrite Hcsv.
  destruct names as [|n names]; [done|].
  rewrite JoinFacts.split_join; [|done|].
  - by apply JoinFacts.strip_clean_names.
  - eapply Forall_impl; [exact Hclean|]. intros x (_ & _ & Hc) Hin.
    apply ConfigFacts.contains_char in Hin. congruence.
Qed.

Lemma large_table_names_roundtrip_witness :
  large_table_names default_settings =
    ["syslog"; "sys_audit"; "sys_log_transaction"; "sys_email_log"].
Proof.
  apply (large_table_names_roundtrip default_settings
           ["syslog"; "sys_audit"; "sys_log_transaction"; "sys_email_log"]).
  - reflexivity.
  - repeat constructor; done.
Defined.

(** X11.  [strip_trailing_slash] removes the trailing slashes and nothing
    else: the value is the result followed by slashes only; the result does
    not end with a slash; the validator changes nothing when applied again;
    and slashes added at the end of the value do not change the result. *)
Theorem strip_trailing_slash_spec (v : string) :
  (exists n, v = ConfigUrl.strip_trailing_slash v +:+ PyStr.replicate_char "/" n) /\
  (forall p, ConfigUrl.strip_trailing_slash v <> p +:+ "/") /\
  ConfigUrl.strip_trailing_slash (ConfigUrl.strip_trailing_slash v)
    = ConfigUrl.strip_trailing_slash v /\
  (forall n, ConfigUrl.strip_trailing_slash (v +:+ PyStr.replicate_char "/" n)
             = ConfigUrl.strip_trailing_slash v).
Proof.
  unfold ConfigUrl.strip_trailing_slash.
  split; [apply JoinFacts.rstrip_char_decomp|].
  split; [apply JoinFacts.rstrip_char_no_trailing|].
  split; [|apply JoinFacts.rstrip_char_app_replicate].
  destruct (JoinFacts.rstrip_char_decomp "/" v) as [n Hn].
  rewrite Hn at 2. by rewrite JoinFacts.rstrip_char_app_replicate.
Qed.

(** X12.  [build_encoded_query] on a dict joins one [key=value] term per
    item with ["^"], in the order of the items: when no key and no value
    holds a ["^"], splitting the query at ["^"] gives the terms back; the
    empty dict gives the empty query. *)
Theorem build_encoded_query_terms (items : list (string * string))
    (Hcaret : Forall (fun item => "^"%char ∉ PyStr.chars (Utils.term item)) items) :
  Utils.build_encoded_query (inl []) = "" /\
  (items <> [] ->
   Str.split "^" (Utils.build_encoded_query (inl items)) = List.map Utils.term items).
Proof.
  split; [done|]. intros Hne.
  destruct items as [|i items]; [done|]. cbn [Utils.build_encoded_query].
  apply (JoinFacts.split_join "^"); [done|].
  by apply Forall_map.
Qed.

Lemma build_encoded_query_terms_witness :
  Utils.build_encoded_query (inl []) = "" /\
  ([("active", "true"); ("priority", "1")] <> [] ->
   Str.split "^" (Utils.build_encoded_query
                    (inl [("active", "true"); ("priority", "1")]))
   = ["active=true"; "priority=1"]).
Proof.
  apply (build_encoded_query_terms [("active", "true"); ("priority", "1")]).
  repeat constructor; apply (bool_decide_unpack _); vm_compute; exact I.
Defined.

(** X13.  [build_encoded_query] does not escape: a value that holds
    ["^key2=value2"] gives the same query as a dict with the item
    [key2=value2] after it, at any place among other items. *)
Theorem build_encoded_query_no_escape
    (before after : list (string * string)) (key v key2 v2 : string) :
  Utils.build_encoded_query
    (inl (before ++ [(key, v +:+ "^" +:+ key2 +:+ "=" +:+ v2)] ++ after))
  = Utils.build_encoded_query
      (inl (before ++ [(key, v); (key2, v2)] ++ after)).
Proof.
  assert (Hterm : Utils.term (key, v +:+ "^" +:+ key2 +:+ "=" +:+ v2)
                  = PyStr.join "^" [Utils.term (key, v); Utils.term (key2, v2)]).
  { unfold Utils.term, PyStr.join. simpl.
    by rewrite !PolicyMoreFacts.str_app_assoc. }
  assert (Hmid : forall l : list string,
             PyStr.join "^" (Utils.term (key, v +:+ "^" +:+ key2 +:+ "=" +:+ v2) :: l)
             = PyStr.join "^" (Utils.term (key, v) :: Utils.term (key2, v2) :: l)).
  { intros [|x l]; [exact Hterm|].
    change (PyStr.join "^" (?a :: x :: l)) with (a +:+ "^" +:+ PyStr.join "^" (x :: l)).
    rewrite Hterm.
    change (PyStr.join "^" [Utils.term (key, v); Utils.term (key2, v2)])
      with (Utils.term (key, v) +:+ "^" +:+ Utils.term (key2, v2)).
    change (PyStr.join "^" (Utils.term (key, v) :: Utils.term (key2, v2) :: x :: l))
      with (Utils.term (key, v) +:+ "^" +:+ Utils.term (key2, v2) +:+ "^"
            +:+ PyStr.join "^" (x :: l)).
    by rewrite !PolicyMoreFacts.str_app_assoc. }
  assert (Hbuild : forall items : list (string * string),
             items <> [] ->
             Utils.build_encoded_query (inl items)
             = PyStr.join "^" (List.map Utils.term items)).
  { by intros [|i items]. }
  rewrite !Hbuild by (by destruct before).
  rewrite !List.map_app. cbn [List.map app].
  destruct before as [|b before]; [apply Hmid|].
  rewrite !(JoinFacts.join_app "^" (List.map Utils.term (b :: before))) by done.
  by rewrite Hmid.
Qed.

Module ExplainFacts.
Import PyStr.

Lemma split_once_none (sep : ascii) (x : string) :
  sep ∉ chars x -> split_once sep x = [x].
Proof.
  induction x as [|c x IH]; [done|].
  rewrite ConfigFacts.chars_cons, not_elem_of_cons. intros [Hne Hx].
  cbn [split_once]. destruct (Ascii.eqb_spec c sep) as [->|_]; [done|].
  by rewrite IH.
Qed.

Lemma split_once_app (sep : ascii) (x rest : string) :
  sep ∉ chars x -> split_once sep (x +:+ String sep rest) = [x; rest].
Proof.
  induction x as [|c x IH].
  - intros _. rewrite StrFacts.app_nil. cbn [split_once]. by rewrite Ascii.eqb_refl.
  - rewrite ConfigFacts.chars_cons, not_elem_of_cons. intros [Hne Hx].
    rewrite StrFacts.app_cons. cbn [split_once].
    destruct (Ascii.eqb_spec c sep) as [->|_]; [done|]. by rewrite IH.
Qed.

End ExplainFacts.

(** X14.  How [explain] of the error analysis reads an element id: an id
    without a colon raises [ValueError] and the client is not asked; an id
    [table:rest] is split at its first colon only, so that the record
    [rest] of [table] is fetched even when [rest] holds colons, an error of
    the client is passed on, and the answer carries the id and the record
    as they are. *)
Theorem explain_element_id (get_record : get_record_fn) :
  (forall element_id,
      ":"%char ∉ PyStr.chars element_id ->
      ErrorAnalysisExplain.explain get_record element_id
      = ThrowValueError "not enough values to unpack (expected 2, got 1)") /\
  (forall tbl rest e,
      ":"%char ∉ PyStr.chars tbl ->
      get_record tbl rest = Raise e ->
      ErrorAnalysisExplain.explain get_record (tbl +:+ ":" +:+ rest) = Throw e) /\
  (forall tbl rest r,
      ":"%char ∉ PyStr.chars tbl ->
      get_record tbl rest = Ok r ->
      exists x,
        ErrorAnalysisExplain.explain get_record (tbl +:+ ":" +:+ rest) = Return x /\
        element x = tbl +:+ ":" +:+ rest /\ explained_record x = r).
Proof.
  split; [|split].
  - intros eid Hno. unfold ErrorAnalysisExplain.explain.
    by rewrite ExplainFacts.split_once_none.
  - intros tbl rest e Hno Hget. unfold ErrorAnalysisExplain.explain.
    change (tbl +:+ ":" +:+ rest) with (tbl +:+ String ":" rest).
    rewrite ExplainFacts.split_once_app by done. by rewrite Hget.
  - intros tbl rest r Hno Hget. unfold ErrorAnalysisExplain.explain.
    change (tbl +:+ ":" +:+ rest) with (tbl +:+ String ":" rest).
    rewrite ExplainFacts.split_once_app by done. rewrite Hget. by eexists.
Qed.

(** X15.  From [run] to [explain]: the element id of the finding of a
    cluster makes [explain] fetch, from the table [syslog], the record
    whose [sys_id] is that of the first entry of the cluster, whatever
    characters the [sys_id] holds. *)
Theorem finding_element_id_explains
    (get_record : get_record_fn) (src : string) (entries : list record)
    (f : ErrorAnalysis.Finding)
    (Hfinding : ErrorAnalysis.finding_of (src, entries) = Ok f) :
  exists e0,
    head entries = Some e0 /\
    element_id f = "syslog:" +:+ get_default e0 "sys_id" "" /\
    match get_record "syslog" (get_default e0 "sys_id" "") with
    | Raise e => ErrorAnalysisExplain.explain get_record (element_id f) = Throw e
    | Ok r =>
        exists x,
          ErrorAnalysisExplain.explain get_record (element_id f) = Return x /\
          element x = element_id f /\ explained_record x = r
    end.
Proof.
  destruct entries as [|e0 entries]; [done|].
  unfold ErrorAnalysis.finding_of in Hfinding. injection Hfinding as <-.
  exists e0. split; [done|]. split; [done|]. cbn [element_id].
  unfold ErrorAnalysisExplain.explain.
  change ("syslog:" +:+ get_default e0 "sys_id" "")
    with ("syslog" +:+ String ":" (get_default e0 "sys_id" "")).
  rewrite ExplainFacts.split_once_app
    by (apply (bool_decide_unpack _); vm_compute; exact I).
  destruct (get_record "syslog" (get_default e0 "sys_id" "")); [|done].
  by eexists.
Qed.

Lemma finding_element_id_explains_witness :
  exists x,
    ErrorAnalysisExplain.explain MoreExamples.get_entry_1 "syslog:a:1" = Return x /\
    element x = "syslog:a:1" /\ explained_record x = MoreExamples.entry_1.
Proof.
  destruct (finding_element_id_explains MoreExamples.get_entry_1 "A"
              [MoreExamples.entry_1] MoreExamples.finding_A eq_refl)
    as (e0 & He0 & _ & H).
  injection He0 as <-. exact H.
Defined.

(** X16.  [_raise_for_status] raises exactly for the status codes from 400
    on.  The exception stores the status code of the response, except that
    every code from 500 on is stored as 500; its message is the message of
    the response body when there is one. *)
Theorem raise_for_status_classes (response : ClientStatus.Response) :
  (ClientStatus._raise_for_status response = None
   <-> ClientStatus.response_status response < 400) /\
  (forall e, ClientStatus._raise_for_status response = Some e ->
     ClientStatus.status_code e =
       Some (if ClientStatus.response_status response >=? 500 then 500
             else ClientStatus.response_status response) /\
     (forall m, ClientStatus.body_error_message response = Some m ->
                ClientStatus.message e = m) /\
     (ClientStatus.cls e = ClientStatus.ServerError
      <-> 500 <= ClientStatus.response_status response)).
Proof.
  unfold ClientStatus._raise_for_status, ClientStatus._extract_error_message.
  destruct response as [code body]. simpl.
  destruct (Z.eqb_spec code 401) as [->|H401].
  { split; [split; [done | lia]|]. intros e [= <-]. simpl.
    split; [done|]. split; [by intros m ->|]. split; [done | lia]. }
  destruct (Z.eqb_spec code 403) as [->|H403].
  { split; [split; [done | lia]|]. intros e [= <-]. simpl.
    split; [done|]. split; [by intros m ->|]. split; [done | lia]. }
  destruct (Z.eqb_spec code 404) as [->|H404].
  { split; [split; [done | lia]|]. intros e [= <-]. simpl.
    split; [done|]. split; [by intros m ->|]. split; [done | lia]. }
  destruct (Z.geb_spec code 500) as [H500|H500].
  { split; [split; [done | lia]|]. intros e [= <-]. simpl.
    split; [done|]. split; [by intros m ->|]. split; [lia | done]. }
  destruct (Z.geb_spec code 400) as [H400|H400].
  { split; [split; [done | lia]|]. intros e [= <-]. simpl.
    split; [done|]. split; [by intros m ->|]. split; [done | lia]. }
  split; [split; [lia | done]|]. done.
Qed.

(** * Properties of the developer tools *)

Module DeveloperFacts.
Import State Envelope Developer.

Lemma delete_ids_ok (del : string -> string -> result bool)
    (tbl : string) (ids : list string) (n : Z) :
  Forall (fun i => exists b, del tbl i = Ok b) ids ->
  delete_ids del tbl ids n = Ok (n + len ids).
Proof.
  intros H. revert n. induction H as [|i ids [b Hb] _ IH]; intros n; simpl.
  - f_equal. unfold len. simpl. lia.
  - rewrite Hb, IH. f_equal. unfold len. simpl. lia.
Qed.

Lemma delete_entries_ok (del : string -> string -> result bool)
    (entries : list SeedEntry) (n : Z) :
  Forall (fun e => Forall (fun i => exists b, del (table e) i = Ok b) (sys_ids e))
         entries ->
  delete_entries del entries n = Ok (n + len (flat_map sys_ids entries)).
Proof.
  intros H. revert n. induction H as [|e entries He _ IH]; intros n; simpl.
  - f_equal. unfold len. simpl. lia.
  - rewrite (delete_ids_ok del _ _ _ He), IH. f_equal.
    unfold len. rewrite length_app. lia.
Qed.

(** When every creation succeeds, [create_all] returns one id per record,
    after the ids it was given. *)
Lemma create_all_length (create : string -> record -> result record)
    (tbl : string) (rl : list record) (acc ids : list string) :
  create_all create tbl rl acc = inr ids ->
  length ids = (length acc + length rl)%nat.
Proof.
  revert acc. induction rl as [|r rl IH]; intros acc; simpl.
  - intros [= <-]. lia.
  - destruct (create tbl r) as [created|e]; [|done].
    destruct (created !! "sys_id") as [sid|]; [|done].
    intros H%IH. rewrite length_app in H. simpl in H. lia.
Qed.

Lemma remove_track_fresh (tracker : gmap string (list SeedEntry))
    (tag tbl : string) (ids : list string) :
  tracker !! tag = None ->
  SeededRecordTracker.remove (SeededRecordTracker.track tracker tag tbl ids) tag
  = tracker.
Proof.
  intros Hfresh. unfold SeededRecordTracker.remove, SeededRecordTracker.track.
  rewrite Hfresh. apply map_eq. intros k.
  destruct (decide (k = tag)) as [->|Hne].
  - by rewrite lookup_delete_eq.
  - by rewrite lookup_delete_ne, lookup_alter_ne, lookup_insert_ne.
Qed.

End DeveloperFacts.

Import Developer.

(** X17.  A preview token is spent by the attempt, not by the success:
    after [table_apply_update] with a token, whether the update was made,
    the client raised, or the token was unknown or expired, the token is
    not in the store, and every later [table_apply_update] with it, at any
    time and with any client, answers "Invalid or expired preview token"
    without a call of the client and leaves the store as it is. *)
Theorem apply_spends_token
    (update_record : string -> string -> Changes -> result record)
    (preview_store : PreviewTokenStore Payload) (now : float)
    (correlation_id token : string) :
  _store (table_apply_update update_record preview_store now correlation_id token).1
    !! token = None /\
  (forall (update_record' : string -> string -> Changes -> result record)
          (later : float) (correlation_id' : string),
      table_apply_update update_record'
        (table_apply_update update_record preview_store now correlation_id token).1
        later correlation_id' token
      = ((table_apply_update update_record preview_store now correlation_id token).1,
         Envelope.failure correlation_id' "Invalid or expired preview token")).
Proof.
  assert (Habs : _store (table_apply_update update_record preview_store now
                           correlation_id token).1 !! token = None).
  { unfold table_apply_update.
    destruct (consume preview_store now token) as [st1 payload] eqn:Hc.
    apply StateFacts.consume_removes in Hc.
    destruct payload as [p|]; [|done].
    by destruct (update_record (payload_table p) (payload_sys_id p) (payload_changes p)). }
  split; [done|]. intros update' later cid'.
  unfold table_apply_update at 1.
  by rewrite StateFacts.consume_missing.
Qed.

(** X18.  From preview to apply.  When the write gate lets the table pass,
    the changes parse and the record is read, [table_preview_update]
    answers with the token; a [table_apply_update] with this token at a
    computed age within the TTL calls [update_record] with the table, the [sys_id]
    and the parsed changes of the preview, answers with the updated record
    or with the message of the client's exception, and leaves no token. *)
Theorem preview_then_apply
    (settings : Settings) (json_loads : string -> string + Changes)
    (get_record : string -> string -> result record)
    (update_record : string -> string -> Changes -> result record)
    (preview_store : PreviewTokenStore Payload) (token : string) (created now : float)
    (cid cid' table sys_id changes : string)
    (changes_dict : Changes) (current : record)
    (Hgate : can_write table settings false = true)
    (Hparse : json_loads changes = inr changes_dict)
    (Hread : get_record table sys_id = Ok current)
    (Hage : within_ttl (_ttl preview_store) now created) :
  exists store1 data,
    table_preview_update settings json_loads get_record preview_store token created
      cid table sys_id changes = (store1, Envelope.success cid data) /\
    preview_token data = token /\
    exists store2,
      table_apply_update update_record store1 now cid' token =
        (store2,
         match update_record table sys_id changes_dict with
         | Ok updated =>
             Envelope.success cid'
               {| applied_table := table; applied_sys_id := sys_id;
                  applied_record := updated |}
         | Raise e => Envelope.failure cid' (exn_str e)
         end) /\
      _store store2 !! token = None.
Proof.
  unfold table_preview_update. rewrite Hgate, Hparse, Hread. simpl.
  do 2 eexists. split; [reflexivity|]. split; [done|].
  unfold table_apply_update, consume. simpl. rewrite lookup_insert_eq.
  assert (_is_expired
            {| _ttl := _ttl preview_store;
               _store := <[token := {| payload :=
                                         {| payload_table := table;
                                            payload_sys_id := sys_id;
                                            payload_changes := changes_dict |};
                                       created_at := created |}]>
                           (_store preview_store) |}
            now
            {| payload := {| payload_table := table; payload_sys_id := sys_id;
                             payload_changes := changes_dict |};
               created_at := created |} = false) as ->.
  { by apply StateFacts.is_expired_within. }
  simpl. eexists. split.
  - destruct (update_record table sys_id changes_dict); reflexivity.
  - simpl. apply lookup_delete_eq.
Qed.

Lemma preview_then_apply_witness :
  exists store1 data,
    table_preview_update default_settings MoreExamples.parse_changes
      MoreExamples.get_incident MoreExamples.empty_store "tok-9" 10
      "c-1" "incident" "inc1" MoreExamples.changes_text
    = (store1, Envelope.success "c-1" data) /\
    preview_token data = "tok-9" /\
    exists store2,
      table_apply_update MoreExamples.update_incident store1 200 "c-2" "tok-9" =
        (store2,
         match MoreExamples.update_incident "incident" "inc1" [("state", "2")] with
         | Ok updated =>
             Envelope.success "c-2"
               {| applied_table := "incident"; applied_sys_id := "inc1";
                  applied_record := updated |}
         | Raise e => Envelope.failure "c-2" (exn_str e)
         end) /\
      _store store2 !! "tok-9" = None.
Proof.
  apply (preview_then_apply default_settings MoreExamples.parse_changes
           MoreExamples.get_incident MoreExamples.update_incident
           MoreExamples.empty_store "tok-9" 10 200 "c-1" "c-2" "incident" "inc1"
           MoreExamples.changes_text [("state", "2")] MoreExamples.incident_1).
  - exact PolicyMoreFacts.can_write_dev_incident.
  - reflexivity.
  - reflexivity.
  - eexists; split; [reflexivity | vm_compute; discriminate].
Defined.

(** X19.  The developer tools never ask for the override of the write
    gate: in production, whatever [allow_writes_in_prod] says, and for a
    table of the deny list in any environment, [table_preview_update] and
    [dev_seed_test_data] answer that writes are blocked, ask neither the
    parser nor the client, create no token and track nothing. *)
Theorem developer_tools_blocked
    (settings : Settings) (table : string)
    (Hblocked : is_production settings = true \/ table ∈ DENIED_TABLES) :
  (forall json_loads get_record (preview_store : PreviewTokenStore Payload)
          token now cid sys_id changes,
      table_preview_update settings json_loads get_record preview_store token now
        cid table sys_id changes
      = (preview_store, Envelope.failure cid blocked)) /\
  (forall json_loads_records create_record
          (seed_tracker : gmap string (list SeedEntry)) fresh_hex cid records tag,
      dev_seed_test_data settings json_loads_records create_record seed_tracker
        fresh_hex cid table records tag
      = (seed_tracker, Envelope.failure cid blocked)).
Proof.
  assert (Hgate : can_write table settings false = false).
  { unfold can_write. destruct (decide (table ∈ DENIED_TABLES)); [done|].
    destruct Hblocked as [-> | ?]; done. }
  split; intros; [unfold table_preview_update | unfold dev_seed_test_data];
    by rewrite Hgate.
Qed.

Lemma developer_tools_blocked_witness :
  (forall json_loads get_record (preview_store : PreviewTokenStore Payload)
          token now cid sys_id changes,
      table_preview_update MoreExamples.prod_allowing_settings json_loads get_record
        preview_store token now cid "incident" sys_id changes
      = (preview_store, Envelope.failure cid blocked)) /\
  (forall json_loads_records create_record
          (seed_tracker : gmap string (list SeedEntry)) fresh_hex cid records tag,
      dev_seed_test_data MoreExamples.prod_allowing_settings json_loads_records
        create_record seed_tracker fresh_hex cid "incident" records tag
      = (seed_tracker, Envelope.failure cid blocked)).
Proof.
  apply (developer_tools_blocked MoreExamples.prod_allowing_settings "incident").
  left. reflexivity.
Defined.

(** X20.  [dev_cleanup] of a tracked tag whose deletions all succeed
    deletes every tracked id once: it answers with the number of tracked
    ids over all the entries of the tag, and removes the tag, so that a
    second cleanup of the tag finds no records. *)
Theorem dev_cleanup_deletes_all
    (delete_record : string -> string -> result bool)
    (seed_tracker : gmap string (list SeedEntry)) (cid tag : string)
    (entries : list SeedEntry)
    (Htag : SeededRecordTracker.get seed_tracker tag = Some entries)
    (Hdel : Forall (fun e => Forall (fun i => exists b, delete_record (State.table e) i = Ok b)
                                    (sys_ids e)) entries) :
  dev_cleanup delete_record seed_tracker cid tag =
    (SeededRecordTracker.remove seed_tracker tag,
     Envelope.success cid
       {| cleanup_tag := tag; deleted_count := len (flat_map sys_ids entries) |}) /\
  (forall delete_record' cid',
      dev_cleanup delete_record' (SeededRecordTracker.remove seed_tracker tag) cid' tag =
        (SeededRecordTracker.remove seed_tracker tag,
         Envelope.failure cid' ("No records found for tag '" +:+ tag +:+ "'"))).
Proof.
  split.
  - unfold dev_cleanup. rewrite Htag.
    by rewrite (DeveloperFacts.delete_entries_ok delete_record entries 0 Hdel).
  - intros del' cid'. unfold dev_cleanup.
    rewrite StateFacts.get_lookup. unfold SeededRecordTracker.remove.
    by rewrite lookup_delete_eq.
Qed.

Lemma dev_cleanup_deletes_all_witness :
  dev_cleanup MoreExamples.delete_ok MoreExamples.tracker_x "c-1" "x" =
    (SeededRecordTracker.remove MoreExamples.tracker_x "x",
     Envelope.success "c-1" {| cleanup_tag := "x"; deleted_count := 3 |}) /\
  (forall delete_record' cid',
      dev_cleanup delete_record' (SeededRecordTracker.remove MoreExamples.tracker_x "x")
        cid' "x" =
        (SeededRecordTracker.remove MoreExamples.tracker_x "x",
         Envelope.failure cid' ("No records found for tag '" +:+ "x" +:+ "'"))).
Proof.
  apply (dev_cleanup_deletes_all MoreExamples.delete_ok MoreExamples.tracker_x "c-1" "x"
           [ {| State.table := "incident"; sys_ids := ["a"; "b"] |};
             {| State.table := "problem"; sys_ids := ["c"] |} ]).
  - reflexivity.
  - repeat constructor; by eexists.
Defined.

(** X21.  Seed, then clean up.  When [dev_seed_test_data] succeeds under a
    tag that the tracker does not hold, it has created one record per
    element of the parsed list and tracks their ids under the tag; a
    [dev_cleanup] of the tag whose deletions succeed then deletes as many
    records as were created and leaves the tracker as it was before the
    seeding. *)
Theorem seed_then_cleanup
    (settings : Settings) (json_loads_records : string -> string + list record)
    (create_record : string -> record -> result record)
    (delete_record : string -> string -> result bool)
    (seed_tracker : gmap string (list SeedEntry))
    (fresh_hex cid cid' table records tag : string)
    (record_list : list record) (ids : list string)
    (Hgate : can_write table settings false = true)
    (Hparse : json_loads_records records = inr record_list)
    (Hcreate : create_all create_record table record_list [] = inr ids)
    (Htag : tag <> "")
    (Hfresh : seed_tracker !! tag = None)
    (Hdel : Forall (fun i => exists b, delete_record table i = Ok b) ids) :
  exists tracker1,
    dev_seed_test_data settings json_loads_records create_record seed_tracker
      fresh_hex cid table records (Some tag)
    = (tracker1,
       Envelope.success cid
         {| seed_table := table; created_count := len record_list;
            seed_sys_ids := ids; seed_tag := tag |}) /\
    SeededRecordTracker.get tracker1 tag
    = Some [ {| State.table := table; sys_ids := ids |} ] /\
    dev_cleanup delete_record tracker1 cid' tag
    = (seed_tracker,
       Envelope.success cid'
         {| cleanup_tag := tag; deleted_count := len record_list |}).
Proof.
  assert (Hlen : len ids = len record_list).
  { apply DeveloperFacts.create_all_length in Hcreate. unfold len.
    simpl in Hcreate. by rewrite Hcreate. }
  unfold dev_seed_test_data. rewrite Hgate, Hparse, Hcreate. simpl.
  destruct tag as [|c tag]; [done|].
  eexists. split; [by rewrite Hlen|].
  assert (Hget : SeededRecordTracker.get
                   (SeededRecordTracker.track seed_tracker (String c tag) table ids)
                   (String c tag)
                 = Some [ {| State.table := table; sys_ids := ids |} ]).
  { by rewrite StateFacts.get_lookup, StateFacts.track_lookup, Hfresh. }
  split; [done|].
  unfold dev_cleanup. rewrite Hget.
  rewrite (DeveloperFacts.delete_entries_ok delete_record _ 0).
  - simpl. rewrite app_nil_r, Hlen.
    by rewrite DeveloperFacts.remove_track_fresh.
  - by repeat constructor.
Qed.

Lemma seed_then_cleanup_witness :
  exists tracker1,
    dev_seed_test_data default_settings (fun _ => inr [MoreExamples.incident_1])
      (fun _ r => Ok r) SeededRecordTracker.init "0a1b2c3d" "c-1" "incident" "[...]"
      (Some "t1")
    = (tracker1,
       Envelope.success "c-1"
         {| seed_table := "incident"; created_count := len [MoreExamples.incident_1];
            seed_sys_ids := ["inc1"]; seed_tag := "t1" |}) /\
    SeededRecordTracker.get tracker1 "t1"
    = Some [ {| State.table := "incident"; sys_ids := ["inc1"] |} ] /\
    dev_cleanup MoreExamples.delete_ok tracker1 "c-2" "t1"
    = (SeededRecordTracker.init,
       Envelope.success "c-2"
         {| cleanup_tag := "t1"; deleted_count := len [MoreExamples.incident_1] |}).
Proof.
  apply (seed_then_cleanup default_settings (fun _ => inr [MoreExamples.incident_1])
           (fun _ r => Ok r) MoreExamples.delete_ok SeededRecordTracker.init
           "0a1b2c3d" "c-1" "c-2" "incident" "[...]" "t1"
           [MoreExamples.incident_1] ["inc1"]).
  - exact PolicyMoreFacts.can_write_dev_incident.
  - reflexivity.
  - reflexivity.
  - discriminate.
  - reflexivity.
  - repeat constructor; by eexists.
Defined.

(** X22.  A preview, a seeding or a cleanup that answers with an error has
    changed nothing: the token store, respectively the tracker, is the one
    before the call.  In particular a seeding in which one creation fails
    tracks nothing, and a cleanup in which one deletion fails keeps the
    whole tag. *)
Theorem failed_tool_changes_nothing
    (settings : Settings)
    (json_loads : string -> string + Changes)
    (json_loads_records : string -> string + list record)
    (get_record : string -> string -> result record)
    (create_record : string -> record -> result record)
    (delete_record : string -> string -> result bool) :
  (forall (preview_store : PreviewTokenStore Payload) token now cid table sys_id changes,
      Envelope.status
        (table_preview_update settings json_loads get_record preview_store token now
           cid table sys_id changes).2 = "error" ->
      (table_preview_update settings json_loads get_record preview_store token now
         cid table sys_id changes).1 = preview_store) /\
  (forall (seed_tracker : gmap string (list SeedEntry)) fresh_hex cid table records tag,
      Envelope.status
        (dev_seed_test_data settings json_loads_records create_record seed_tracker
           fresh_hex cid table records tag).2 = "error" ->
      (dev_seed_test_data settings json_loads_records create_record seed_tracker
         fresh_hex cid table records tag).1 = seed_tracker) /\
  (forall (seed_tracker : gmap string (list SeedEntry)) cid tag,
      Envelope.status (dev_cleanup delete_record seed_tracker cid tag).2 = "error" ->
      (dev_cleanup delete_record seed_tracker cid tag).1 = seed_tracker).
Proof.
  split; [|split].
  - intros st token now cid table sys_id changes. unfold table_preview_update.
    destruct (negb (can_write table settings false)); [done|].
    destruct (json_loads changes) as [msg|cd]; [done|].
    destruct (get_record table sys_id) as [current|e]; [|done].
    simpl. discriminate.
  - intros tr hex cid table records tag. unfold dev_seed_test_data.
    destruct (negb (can_write table settings false)); [done|].
    destruct (json_loads_records records) as [msg|rl]; [done|].
    destruct (create_all create_record table rl []) as [msg|ids]; [done|].
    simpl. discriminate.
  - intros tr cid tag. unfold dev_cleanup.
    destruct (SeededRecordTracker.get tr tag) as [entries|]; [|done].
    destruct (delete_entries delete_record entries 0) as [n|e]; [|done].
    simpl. discriminate.
Qed.

(** * Properties of the introspection tools *)

Import Introspection.

(** X23.  [table_query] asks the client only what the policy lets
    through: two clients that answer alike every query on a table off the
    deny list with a limit of at most [max_row_limit] make [table_query]
    give the same answer, for every table, filter and requested limit. *)
Theorem table_query_asks_within_policy
    (settings : Settings) (client1 client2 : query_fn)
    (cid table query fields : string) (limit offset : Z) (order_by : string)
    (Hagree : forall t q f l o ob,
        t ∉ DENIED_TABLES -> l <= max_row_limit settings ->
        client1 t q f l o ob = client2 t q f l o ob) :
  table_query settings client1 cid table query fields limit offset order_by
  = table_query settings client2 cid table query fields limit offset order_by.
Proof.
  unfold table_query, check_table_access.
  destruct (decide (table ∈ DENIED_TABLES)) as [|Hallowed]; [done|].
  rewrite (PolicyFacts.enforce_query_safety_allowed _ _ _ _ Hallowed).
  destruct (in_list table (large_table_names settings) && negb (_has_date_filter query));
    [done|].
  rewrite Hagree; [done | done |].
  destruct (Z.gtb_spec limit (max_row_limit settings)); lia.
Qed.

Lemma table_query_asks_within_policy_witness :
  table_query default_settings MoreExamples.query_users "c-1" "sys_user" "active=true"
    "" 500 0 ""
  = table_query default_settings MoreExamples.query_users_capped "c-1" "sys_user"
      "active=true" "" 500 0 "".
Proof.
  apply (table_query_asks_within_policy default_settings MoreExamples.query_users
           MoreExamples.query_users_capped).
  intros t q f l o ob _ Hl. unfold MoreExamples.query_users_capped.
  destruct (Z.gtb_spec l 100) as [Hgt|_]; [|reflexivity].
  simpl in Hl. lia.
Defined.

(** X24.  What a successful [table_query] returns: in every record the
    value of every sensitive field is the mask; the limit of the pagination
    is neither above [max_row_limit] nor above the requested limit; and
    there is a warning exactly when the requested limit was above
    [max_row_limit]. *)
Theorem table_query_success
    (settings : Settings) (client : query_fn)
    (cid table query fields : string) (limit offset : Z) (order_by : string)
    (Hsuccess : Envelope.status
                  (table_query settings client cid table query fields limit offset
                     order_by) = "success") :
  exists rows p,
    Envelope.data (table_query settings client cid table query fields limit offset
                     order_by) = Some rows /\
    Envelope.pagination (table_query settings client cid table query fields limit
                           offset order_by) = Some p /\
    (forall (r : row) k v, r ∈ rows -> r !! k = Some v ->
       _is_sensitive_field k = true -> v = MASK_VALUE) /\
    Envelope.limit p <= max_row_limit settings /\
    Envelope.limit p <= limit /\
    (Envelope.warnings (table_query settings client cid table query fields limit
                          offset order_by) = None
     <-> limit <= max_row_limit settings).
Proof.
  revert Hsuccess. unfold table_query, check_table_access.
  destruct (decide (table ∈ DENIED_TABLES)) as [|Hallowed]; [done|].
  rewrite (PolicyFacts.enforce_query_safety_allowed _ _ _ _ Hallowed).
  destruct (in_list table (large_table_names settings) && negb (_has_date_filter query));
    [done|].
  set (eff := if limit >? max_row_limit settings then max_row_limit settings else limit).
  assert (Heff : eff <= max_row_limit settings /\ eff <= limit /\
                 ((eff <? limit) = false <-> limit <= max_row_limit settings)).
  { unfold eff. destruct (Z.gtb_spec limit (max_row_limit settings));
      destruct (Z.ltb_spec eff limit); unfold eff in *;
      repeat split; try lia; try done;
      destruct (Z.gtb_spec limit (max_row_limit settings)); lia. }
  destruct Heff as (H1 & H2 & H3).
  destruct (client table query (field_list fields) eff offset
              (if Str.truthy order_by then Some order_by else None))
    as [[records count]|e]; [|done].
  intros _. simpl. do 2 eexists. split; [done|]. split; [done|].
  split; [|split; [done|split; [done|]]].
  - intros r k v Hr Hk Hs.
    apply list_elem_of_In, in_map_iff in Hr as (r0 & <- & _).
    rewrite PolicyMoreFacts.lookup_mask_items, Hs in Hk.
    destruct (r0 !! k); simpl in Hk; congruence.
  - rewrite <- H3. by destruct (eff <? limit).
Qed.

Lemma table_query_success_witness :
  exists rows p,
    Envelope.data (table_query default_settings MoreExamples.query_users "c-1"
                     "sys_user" "active=true" "" 500 0 "") = Some rows /\
    Envelope.pagination (table_query default_settings MoreExamples.query_users "c-1"
                           "sys_user" "active=true" "" 500 0 "") = Some p /\
    (forall (r : row) k v, r ∈ rows -> r !! k = Some v ->
       _is_sensitive_field k = true -> v = MASK_VALUE) /\
    Envelope.limit p <= max_row_limit default_settings /\
    Envelope.limit p <= 500 /\
    (Envelope.warnings (table_query default_settings MoreExamples.query_users "c-1"
                          "sys_user" "active=true" "" 500 0 "") = None
     <-> 500 <= max_row_limit default_settings).
Proof.
  apply (table_query_success default_settings MoreExamples.query_users).
  reflexivity.
Defined.
